(** * k_Sequitur: grammar induction over action sequences

    A shallow embedding of [utilities/grammar_algorithms/k_Sequitur.py] and
    the properties of its four routines: the layer builder
    ([generate_1_layer_of_rules]), the rewriter
    ([convert_a_string_using_reverse_rules]), the fixpoint driver
    ([generate_action_grammar]) and the expander
    ([convert_symbol_to_raw_actions]).

    Python values that occur in a sequence are integers (raw actions) and
    strings (rule names ["R0"], ["R1"], ... and the end-of-episode marker);
    Python dictionaries are association lists in insertion order; the two
    [while] loops take fuel.  The [print] calls of the expander are not
    modelled. *)

From Stdlib Require Import ZArith String Ascii Bool Arith Lia.
From Stdlib Require Import DecimalString DecimalNat.
From Stdlib Require Import List FinFun.
Import ListNotations.

Set Implicit Arguments.

(** ** Symbols and Python equality *)

Inductive symbol : Type :=
| SInt (z : Z)
| SStr (s : string).

(** Python's [==] on the values used as sequence elements and dictionary
    keys; it is structural on integers, strings, tuples and lists, and an
    integer never equals a string. *)
Class PyEq (K : Type) : Type := { py_eqb : K -> K -> bool }.

(** [py_eqb] decides equality. *)
Class PyEqLaws (K : Type) `{PyEq K} : Type := {
  py_eqb_spec : forall a b : K, reflect (a = b) (py_eqb a b)
}.
Arguments PyEqLaws K {_}.

Definition symbol_eqb (a b : symbol) : bool :=
  match a, b with
  | SInt x, SInt y => Z.eqb x y
  | SStr x, SStr y => String.eqb x y
  | _, _ => false
  end.

#[export] Instance PyEq_symbol : PyEq symbol := {| py_eqb := symbol_eqb |}.

Definition prod_eqb {A B} `{PyEq A} `{PyEq B} (p q : A * B) : bool :=
  py_eqb (fst p) (fst q) && py_eqb (snd p) (snd q).

#[export] Instance PyEq_prod {A B} `{PyEq A} `{PyEq B} : PyEq (A * B) :=
  {| py_eqb := prod_eqb |}.

Fixpoint list_eqb {A} `{PyEq A} (l m : list A) : bool :=
  match l, m with
  | [], [] => true
  | x :: l', y :: m' => py_eqb x y && list_eqb l' m'
  | _, _ => false
  end.

#[export] Instance PyEq_list {A} `{PyEq A} : PyEq (list A) :=
  {| py_eqb := list_eqb |}.

(** [pair != last_pair], where [last_pair] may be [None]. *)
Definition option_eqb {A} `{PyEq A} (x y : option A) : bool :=
  match x, y with
  | Some a, Some b => py_eqb a b
  | None, None => true
  | _, _ => false
  end.

(** ** Dictionaries

    A [dict] keeps its keys in insertion order, and assigning to a key that
    is present keeps the key's position. *)

Definition dict (K V : Type) : Type := list (K * V).

Section Dict.
Context {K V : Type} `{PyEq K}.

Fixpoint dict_get (key : K) (d : dict K V) : option V :=
    match d with
    | [] => None
    | (k', v) :: d' => if py_eqb key k' then Some v else dict_get key d'
    end.

Fixpoint dict_set (key : K) (v : V) (d : dict K V) : dict K V :=
    match d with
    | [] => [(key, v)]
    | (k', v') :: d' =>
        if py_eqb key k' then (k', v) :: d'
        else (k', v') :: dict_set key v d'
    end.

Definition dict_keys (d : dict K V) : list K := map fst d.
Definition dict_values (d : dict K V) : list V := map snd d.

(** [d.update(other)] *)
Definition dict_update (d other : dict K V) : dict K V :=
    fold_left (fun acc kv => dict_set (fst kv) (snd kv) acc) other d.
End Dict.

(** [defaultdict(int)]: reading a missing key stores and returns 0. *)
Definition dd_getitem {K} `{PyEq K} (key : K) (d : dict K Z) : Z * dict K Z :=
  match dict_get key d with
  | Some v => (v, d)
  | None => (0%Z, dict_set key 0%Z d)
  end.

(** [d[key] += delta] on a [defaultdict(int)]. *)
Definition dd_add {K} `{PyEq K} (key : K) (delta : Z) (d : dict K Z) : dict K Z :=
  let (v, d') := dd_getitem key d in dict_set key (v + delta)%Z d'.

(** ** The engine *)

Record k_Sequitur : Type := {
  k : Z;
  end_of_episode_symbol : symbol;
  next_rule_name_ix : nat
}.

(** [__init__(self, k, end_of_episode_symbol="/")] *)
Definition init (k0 : Z) (eos : symbol) : k_Sequitur :=
  {| k := k0; end_of_episode_symbol := eos; next_rule_name_ix := 0 |}.

Definition default_end_of_episode_symbol : symbol := SStr "/".

(** ["R{}".format(n)] *)
Definition rule_name (n : nat) : symbol :=
  SStr (String "R" (NilEmpty.string_of_uint (Nat.to_uint n))).

Definition get_next_rule_name (self : k_Sequitur) : symbol * k_Sequitur :=
  (rule_name (next_rule_name_ix self),
   {| k := k self;
      end_of_episode_symbol := end_of_episode_symbol self;
      next_rule_name_ix := S (next_rule_name_ix self) |}).

(** [string[i]] with Python's negative indices.  Every index used below is
    in range ([getitem_in_range], [getitem_last]), so [IndexError] does not
    arise and the default is never returned. *)
Definition getitem (string : list symbol) (i : Z) : symbol :=
  nth (Z.to_nat (if (i <? 0)%Z then i + Z.of_nat (length string) else i)%Z)
      string (SInt 0).

Abbreviation sympair := (symbol * symbol)%type (only parsing).

(** ** Layer builder *)

Record layer_state : Type := {
  pairs_of_symbols : dict sympair Z;
  last_pair : option sympair;
  skip_next_symbol : bool;
  rules : dict symbol sympair;
  engine : k_Sequitur
}.

Definition layer_init (self : k_Sequitur) : layer_state :=
  {| pairs_of_symbols := []; last_pair := None; skip_next_symbol := false;
     rules := []; engine := self |}.

(** One iteration of [for ix in range(len(string) - 1)]. *)
Definition layer_body (string : list symbol) (st : layer_state) (ix : nat)
  : layer_state :=
  if skip_next_symbol st then
    {| pairs_of_symbols := pairs_of_symbols st; last_pair := last_pair st;
       skip_next_symbol := false; rules := rules st; engine := engine st |}
  else if py_eqb (getitem string (Z.of_nat ix + 1))
                 (end_of_episode_symbol (engine st)) then st
  else
    let pair := (getitem string (Z.of_nat ix),
                 getitem string (Z.of_nat ix + 1)) in
    let '(counts, last) :=
      if negb (option_eqb (Some pair) (last_pair st))
      then (dd_add pair 1 (pairs_of_symbols st), Some pair)
      else (pairs_of_symbols st, None) in
    let '(count, counts) := dd_getitem pair counts in
    if (k (engine st) <=? count)%Z then
      let previous_pair := (getitem string (Z.of_nat ix - 1),
                            getitem string (Z.of_nat ix)) in
      let counts := dd_add previous_pair (-1) counts in
      if negb (existsb (py_eqb pair) (dict_values (rules st))) then
        let '(rule_name, self) := get_next_rule_name (engine st) in
        {| pairs_of_symbols := counts; last_pair := last;
           skip_next_symbol := true;
           rules := dict_set rule_name pair (rules st); engine := self |}
      else
        {| pairs_of_symbols := counts; last_pair := last;
           skip_next_symbol := true; rules := rules st;
           engine := engine st |}
    else
      {| pairs_of_symbols := counts; last_pair := last;
         skip_next_symbol := false; rules := rules st;
         engine := engine st |}.

Definition layer_scan (self : k_Sequitur) (string : list symbol)
  : layer_state :=
  fold_left (layer_body string) (seq 0 (length string - 1)) (layer_init self).

(** [{v: k for k, v in rules.items()}] *)
Definition invert_rules (rs : dict symbol sympair) : dict sympair symbol :=
  fold_left (fun acc kv => dict_set (snd kv) (fst kv) acc) rs [].

Definition generate_1_layer_of_rules (self : k_Sequitur)
  (string : list symbol)
  : dict symbol sympair * dict sympair symbol * k_Sequitur :=
  let st := layer_scan self string in
  (rules st, invert_rules (rules st), engine st).

(** ** Rewriter *)

Record rewrite_state : Type := {
  new_string : list symbol;
  skip_next_element : bool;
  rules_usage_count : dict symbol Z
}.

Definition rewrite_init : rewrite_state :=
  {| new_string := []; skip_next_element := false; rules_usage_count := [] |}.

(** One iteration of [for ix in range(len(string))]. *)
Definition rewrite_body (string : list symbol)
  (reverse_rules : dict sympair symbol) (st : rewrite_state) (ix : nat)
  : rewrite_state :=
  if skip_next_element st then
    {| new_string := new_string st; skip_next_element := false;
       rules_usage_count := rules_usage_count st |}
  else if (Z.of_nat ix =? Z.of_nat (length string) - 1)%Z then
    {| new_string := new_string st ++ [getitem string (Z.of_nat ix)];
       skip_next_element := false;
       rules_usage_count := rules_usage_count st |}
  else
    let pair := (getitem string (Z.of_nat ix),
                 getitem string (Z.of_nat ix + 1)) in
    match dict_get pair reverse_rules with
    | Some result =>
        {| new_string := new_string st ++ [result];
           skip_next_element := true;
           rules_usage_count := dd_add result 1 (rules_usage_count st) |}
    | None =>
        {| new_string := new_string st ++ [getitem string (Z.of_nat ix)];
           skip_next_element := false;
           rules_usage_count := rules_usage_count st |}
    end.

Definition convert_a_string_using_reverse_rules (string : list symbol)
  (reverse_rules : dict sympair symbol) : list symbol * dict symbol Z :=
  let st := fold_left (rewrite_body string reverse_rules)
                      (seq 0 (length string)) rewrite_init in
  (new_string st, rules_usage_count st).

(** ** Expander *)

(** One pass of the [for symbol_val in symbol] loop; [symbol_] is the
    source's working list [symbol]. *)
Definition expand_pass (rs : dict symbol sympair) (symbol_ : list symbol)
  : list symbol :=
  flat_map (fun symbol_val =>
              match dict_get symbol_val rs with
              | Some rhs => [fst rhs; snd rhs]
              | None => [symbol_val]
              end) symbol_.

(** [while not finished]; [None] when the fuel runs out. *)
Fixpoint expand_loop (fuel : nat) (rs : dict symbol sympair)
  (symbol_ : list symbol) : option (list symbol) :=
  match fuel with
  | O => None
  | S fuel' =>
      let new_symbol := expand_pass rs symbol_ in
      if py_eqb new_symbol symbol_ then Some new_symbol
      else expand_loop fuel' rs new_symbol
  end.

Definition convert_symbol_to_raw_actions (fuel : nat) (symbol_ : symbol)
  (rs : dict symbol sympair) : option (list symbol) :=
  expand_loop fuel rs [symbol_].

(** ** Fixpoint driver *)

(** [for key in rules_usage_count.keys(): rule_usage[key] += ...] *)
Definition add_usage (rule_usage rules_usage_count : dict symbol Z)
  : dict symbol Z :=
  fold_left (fun acc kv => dd_add (fst kv) (snd kv) acc)
            rules_usage_count rule_usage.

Record driver_state : Type := {
  all_rules : dict symbol sympair;
  rule_usage : dict symbol Z;
  current_actions : list symbol;
  self_ : k_Sequitur
}.

(** The body of [while new_actions != current_actions], entered with
    [current_actions := new_actions]; the result is the next state and the
    layer's [new_actions]. *)
Definition driver_body (st : driver_state) : driver_state :=
  let '(rs, reverse_rules, self) :=
    generate_1_layer_of_rules (self_ st) (current_actions st) in
  let '(new_actions, rules_usage_count) :=
    convert_a_string_using_reverse_rules (current_actions st) reverse_rules in
  {| all_rules := dict_update (all_rules st) rs;
     rule_usage := add_usage (rule_usage st) rules_usage_count;
     current_actions := new_actions;
     self_ := self |}.

(** The loop.  Its first test compares the input list with [None] and
    always succeeds, so the body runs at least once. *)
Fixpoint driver_loop (fuel : nat) (st : driver_state) : option driver_state :=
  match fuel with
  | O => None
  | S fuel' =>
      let st' := driver_body st in
      if negb (py_eqb (current_actions st') (current_actions st))
      then driver_loop fuel' st'
      else Some st'
  end.

(** [for key in rule_usage.keys(): action_usage[expand(key)] = rule_usage[key]] *)
Fixpoint build_action_usage (fuel : nat) (rs : dict symbol sympair)
  (usage : dict symbol Z) (action_usage : dict (list symbol) Z)
  : option (dict (list symbol) Z) :=
  match usage with
  | [] => Some action_usage
  | (key, n) :: usage' =>
      match convert_symbol_to_raw_actions fuel key rs with
      | None => None
      | Some raw => build_action_usage fuel rs usage' (dict_set raw n action_usage)
      end
  end.

Inductive exn : Type := AssertionError.

Inductive outcome (A : Type) : Type :=
| Returns (a : A)
| Raises (e : exn)
| OutOfFuel.
Arguments Raises {A} e.
Arguments OutOfFuel {A}.

Definition grammar : Type :=
  (list symbol * dict symbol sympair * dict (list symbol) Z)%type.

(** The entry point.  The result pairs the outcome with the engine as the
    call leaves it. *)
Definition generate_action_grammar (fuel : nat) (self : k_Sequitur)
  (actions : list symbol) : outcome grammar * k_Sequitur :=
  match actions with
  | [] => (Raises AssertionError, self)
  | SStr _ :: _ => (Raises AssertionError, self)
  | SInt _ :: _ =>
      match driver_loop fuel {| all_rules := []; rule_usage := [];
                                current_actions := actions; self_ := self |} with
      | None => (OutOfFuel, self)
      | Some st =>
          match build_action_usage fuel (all_rules st) (rule_usage st) [] with
          | None => (OutOfFuel, self_ st)
          | Some action_usage =>
              (Returns (current_actions st, all_rules st, action_usage),
               self_ st)
          end
      end
  end.

Definition ints (l : list Z) : list symbol := map SInt l.

(** ** Definitions used to state the properties *)

(** The adjacent pair at position [j], and the number of positions below
    [i] (in the whole sequence: below [len - 1]) that hold a given pair:
    the plain count, with no overlap or consumption adjustment. *)
Definition pair_at (string : list symbol) (j : nat) : sympair :=
  (nth j string (SInt 0), nth (S j) string (SInt 0)).

Definition occurrences_upto (p : sympair) (string : list symbol) (i : nat)
  : nat :=
  length (filter (fun j => py_eqb p (pair_at string j)) (seq 0 i)).

Definition pair_occurrences (p : sympair) (string : list symbol) : nat :=
  occurrences_upto p string (length string - 1).

Definition dd_value {K} `{PyEq K} (key : K) (d : dict K Z) : Z :=
  match dict_get key d with Some v => v | None => 0%Z end.

(** The counting step of the scan: the running counts and [last_pair]
    after lines 100-104. *)
Definition counted (pair : sympair) (st : layer_state)
  : dict sympair Z * option sympair :=
  if negb (option_eqb (Some pair) (last_pair st))
  then (dd_add pair 1 (pairs_of_symbols st), Some pair)
  else (pairs_of_symbols st, None).

(** The rewriter, as a recursion on the sequence
    ([convert_a_string_rewrite_rec]). *)
Fixpoint rewrite_rec (reverse_rules : dict sympair symbol) (l : list symbol)
  : list symbol :=
  match l with
  | [] => []
  | x :: t =>
      match t with
      | [] => [x]
      | y :: t' =>
          match dict_get (x, y) reverse_rules with
          | Some result => result :: rewrite_rec reverse_rules t'
          | None => x :: rewrite_rec reverse_rules t
          end
      end
  end.

(** Invariant of the scan after [i] iterations. *)
Record layer_inv (self : k_Sequitur) (string : list symbol) (i : nat)
  (st : layer_state) : Prop := {
  li_k : k (engine st) = k self;
  li_eos : end_of_episode_symbol (engine st) = end_of_episode_symbol self;
  li_ix : next_rule_name_ix self <= next_rule_name_ix (engine st);
  li_keys :
    dict_keys (rules st)
    = map rule_name (seq (next_rule_name_ix self)
                         (next_rule_name_ix (engine st)
                          - next_rule_name_ix self));
  li_pairs : forall name p, In (name, p) (rules st) ->
    exists j, j < i /\ p = pair_at string j;
  li_counts : forall p,
    (dd_value p (pairs_of_symbols st)
     <= Z.of_nat (occurrences_upto p string i))%Z;
  li_threshold : forall name p, In (name, p) (rules st) ->
    (k self <= Z.of_nat (occurrences_upto p string i))%Z
}.

(** [Expands rs s raw]: unfolding [s] through the rule table [rs] down to
    integers gives the raw sequence [raw]. *)
Inductive Expands (rs : dict symbol sympair) : symbol -> list symbol -> Prop :=
| Expands_int z : Expands rs (SInt z) [SInt z]
| Expands_rule name a b la lb :
    dict_get name rs = Some (a, b) ->
    Expands rs a la -> Expands rs b lb ->
    Expands rs name (la ++ lb).

Inductive ExpandsL (rs : dict symbol sympair)
  : list symbol -> list symbol -> Prop :=
| ExpandsL_nil : ExpandsL rs [] []
| ExpandsL_cons s l raw raws :
    Expands rs s raw -> ExpandsL rs l raws ->
    ExpandsL rs (s :: l) (raw ++ raws).

Create HintDb expands.
#[local] Hint Constructors Expands ExpandsL : expands.

Definition extends (rs rs' : dict symbol sympair) : Prop :=
  forall name v, dict_get name rs = Some v -> dict_get name rs' = Some v.

(** Rule names are strings: an integer is never a key of the table. *)
Definition ints_are_raw (rs : dict symbol sympair) : Prop :=
  forall z, dict_get (SInt z) rs = None.

(** Invariant of the driver's loop on the input [actions]. *)
Record driver_inv (actions : list symbol) (st : driver_state) : Prop := {
  di_keys : forall key, In key (dict_keys (all_rules st)) ->
    exists j, key = rule_name j /\ j < next_rule_name_ix (self_ st);
  di_expands : ExpandsL (all_rules st) (current_actions st) actions;
  di_usage : forall key, In key (dict_keys (rule_usage st)) ->
    exists raw, Expands (all_rules st) key raw;
  di_length : length (current_actions st) <= length actions;
  di_strict : all_rules st <> [] ->
    length (current_actions st) < length actions
}.

(** The state in which the loop is entered. *)
Definition driver_init (self : k_Sequitur) (actions : list symbol)
  : driver_state :=
  {| all_rules := []; rule_usage := []; current_actions := actions;
     self_ := self |}.

(** A run in which ["R0"] and ["R2"] both fire and both expand to
    [(0, 1, 2)]: the input holds the string ["R1"], which the run later
    mints as a rule name, and the pair [(0, "R1")] is minted in the first
    layer and again in the second. *)
Definition remint_actions : list symbol :=
  [SInt 0; SStr "R1"; SInt 0; SStr "R1"; SInt 0; SStr "R1"; SInt 1; SInt 2;
   SInt 9; SInt 0; SInt 1; SInt 2; SInt 8; SInt 0; SInt 1; SInt 2].

Definition remint_final : driver_state :=
  {| all_rules := [(SStr "R0", (SInt 0, SStr "R1"));
                   (SStr "R1", (SInt 1, SInt 2));
                   (SStr "R2", (SInt 0, SStr "R1"))];
     rule_usage := [(SStr "R0", 3%Z); (SStr "R1", 3%Z); (SStr "R2", 2%Z)];
     current_actions := [SStr "R0"; SStr "R0"; SStr "R0"; SStr "R1"; SInt 9;
                         SStr "R2"; SInt 8; SStr "R2"];
     self_ := {| k := 2; end_of_episode_symbol := SStr "/";
                 next_rule_name_ix := 3 |} |}.

(** The sum of the counts of a usage dictionary. *)
Definition usage_total {K : Type} (d : dict K Z) : Z :=
  fold_right (fun kv acc => (snd kv + acc)%Z) 0%Z d.

(** What the scan keeps besides [layer_inv]: the minted pairs are pairwise
    distinct, none has the marker as its second element, and two rules are
    never minted at neighbouring positions. *)
Record layer_rules_inv (self : k_Sequitur) (i : nat) (st : layer_state)
  : Prop := {
  lr_values : NoDup (dict_values (rules st));
  lr_marker : forall name p, In (name, p) (rules st) ->
    snd p <> end_of_episode_symbol self;
  lr_count :
    2 * length (rules st) <= i + (if skip_next_symbol st then 1 else 0)
}.

(** Invariant of the rewriter's loop after [i] iterations. *)
Record rewrite_inv (string : list symbol) (i : nat) (st : rewrite_state)
  : Prop := {
  rw_total :
    (Z.of_nat (length (new_string st)) + usage_total (rules_usage_count st)
     = Z.of_nat i + (if skip_next_element st then 1 else 0))%Z;
  rw_skip : skip_next_element st = true -> i < length string;
  rw_positive :
    Forall (fun kv => (0 < snd kv)%Z) (rules_usage_count st)
}.

(** Invariant of the driver's loop that holds for every input: the rule
    table is named after the counter, and the usage counts account for the
    symbols removed so far. *)
Record driver_names_inv (self : k_Sequitur) (actions : list symbol)
  (st : driver_state) : Prop := {
  dn_k : k (self_ st) = k self;
  dn_eos : end_of_episode_symbol (self_ st) = end_of_episode_symbol self;
  dn_ix : next_rule_name_ix self <= next_rule_name_ix (self_ st);
  dn_keys :
    dict_keys (all_rules st)
    = map rule_name (seq (next_rule_name_ix self)
                         (next_rule_name_ix (self_ st)
                          - next_rule_name_ix self));
  dn_total :
    (Z.of_nat (length (current_actions st)) + usage_total (rule_usage st)
     = Z.of_nat (length actions))%Z;
  dn_positive : Forall (fun kv => (0 < snd kv)%Z) (rule_usage st);
  dn_usage_keys : forall key, In key (dict_keys (rule_usage st)) ->
    In key (dict_keys (all_rules st))
}.

(** * Properties *)

(** ** Python equality *)

Lemma symbol_eqb_spec (a b : symbol) : reflect (a = b) (py_eqb a b).
Proof.
  change (py_eqb a b) with (symbol_eqb a b).
  destruct a as [x|x], b as [y|y]; simpl; try (constructor; discriminate).
  - destruct (Z.eqb_spec x y); constructor; congruence.
  - destruct (String.eqb_spec x y); constructor; congruence.
Qed.

#[export] Instance PyEqLaws_symbol : PyEqLaws symbol :=
  {| py_eqb_spec := symbol_eqb_spec |}.

Lemma prod_eqb_spec {A B} `{PyEqLaws A} `{PyEqLaws B} (p q : A * B) :
  reflect (p = q) (py_eqb p q).
Proof.
  change (py_eqb p q) with (prod_eqb p q).
  destruct p as [a b], q as [c d]; unfold prod_eqb; simpl.
  destruct (py_eqb_spec a c), (py_eqb_spec b d); simpl;
    constructor; congruence.
Qed.

#[export] Instance PyEqLaws_prod {A B} `{PyEqLaws A} `{PyEqLaws B}
  : PyEqLaws (A * B) :=
  {| py_eqb_spec := @prod_eqb_spec A B _ _ _ _ |}.

Lemma list_eqb_spec {A} `{PyEqLaws A} (l m : list A) :
  reflect (l = m) (py_eqb l m).
Proof.
  change (py_eqb l m) with (list_eqb l m).
  revert m; induction l as [|x l IH]; intros [|y m]; simpl;
    try (constructor; congruence).
  destruct (py_eqb_spec x y); simpl; [|constructor; congruence].
  destruct (IH m); constructor; congruence.
Qed.

#[export] Instance PyEqLaws_list {A} `{PyEqLaws A} : PyEqLaws (list A) :=
  {| py_eqb_spec := @list_eqb_spec A _ _ |}.

(** ** Dictionaries *)

Section DictFacts.
Context {K V : Type} `{PyEqLaws K}.
Implicit Types (d : dict K V).

Lemma py_eqb_refl (a : K) : py_eqb a a = true.
Proof. destruct (py_eqb_spec a a); congruence. Qed.

Lemma py_eqb_neq (a b : K) : a <> b -> py_eqb a b = false.
Proof. destruct (py_eqb_spec a b); congruence. Qed.

Lemma dict_get_In key v d : dict_get key d = Some v -> In (key, v) d.
Proof.
  induction d as [|[k' v'] d IH]; simpl; [discriminate|].
  destruct (py_eqb_spec key k') as [->|]; [intros [= ->]; now left|].
  intros Hg; right; auto.
Qed.

Lemma dict_get_None key d :
  dict_get key d = None <-> ~ In key (dict_keys d).
Proof.
  induction d as [|[k' v'] d IH]; simpl; [tauto|].
  destruct (py_eqb_spec key k') as [->|Hne].
  - split; [discriminate|]. intros Hn; exfalso; apply Hn; now left.
  - rewrite IH. split; [intros Hn [He|Hi]; [congruence|tauto]|tauto].
Qed.

Lemma dict_get_Some_key key v d :
  dict_get key d = Some v -> In key (dict_keys d).
Proof. intros Hg. apply dict_get_In in Hg. now apply (in_map fst) in Hg. Qed.

Lemma In_dict_get key v d :
  NoDup (dict_keys d) -> In (key, v) d -> dict_get key d = Some v.
Proof.
  induction d as [|[k' v'] d IH]; simpl; [tauto|].
  intros Hnd [[= -> ->]|Hi].
  - now rewrite py_eqb_refl.
  - inversion Hnd as [|? ? Hni Hnd']; subst.
    destruct (py_eqb_spec key k') as [->|]; [|auto].
    exfalso; apply Hni. now apply (in_map fst) in Hi.
Qed.

Lemma dict_get_set key key' v d :
  dict_get key' (dict_set key v d)
  = if py_eqb key' key then Some v else dict_get key' d.
Proof.
  induction d as [|[k1 v1] d IH]; simpl.
  - now destruct (py_eqb key' key).
  - destruct (py_eqb_spec key k1) as [->|Hne]; simpl.
    + now destruct (py_eqb key' k1).
    + rewrite IH. destruct (py_eqb_spec key' k1) as [->|]; [|reflexivity].
      rewrite py_eqb_neq; congruence.
Qed.

Lemma dict_set_fresh key v d :
  ~ In key (dict_keys d) -> dict_set key v d = d ++ [(key, v)].
Proof.
  induction d as [|[k1 v1] d IH]; simpl; [reflexivity|].
  intros Hn. rewrite py_eqb_neq by (intros ->; tauto).
  rewrite IH; tauto.
Qed.

Lemma dict_keys_set key key' v d :
  In key' (dict_keys (dict_set key v d))
  <-> key' = key \/ In key' (dict_keys d).
Proof.
  induction d as [|[k1 v1] d IH]; simpl; [intuition congruence|].
  destruct (py_eqb_spec key k1) as [->|Hne]; simpl;
    [intuition congruence|].
  rewrite IH; tauto.
Qed.

Lemma dict_update_get_other key d other :
  ~ In key (dict_keys other) ->
  dict_get key (dict_update d other) = dict_get key d.
Proof.
  unfold dict_update. revert d.
  induction other as [|[k1 v1] o IH]; intros d Hn; simpl in *; [reflexivity|].
  rewrite IH by tauto. rewrite dict_get_set.
  rewrite py_eqb_neq; [reflexivity|intros ->; tauto].
Qed.

Lemma dict_update_get_new key v d other :
  NoDup (dict_keys other) -> In (key, v) other ->
  dict_get key (dict_update d other) = Some v.
Proof.
  unfold dict_update. revert d.
  induction other as [|[k1 v1] o IH]; intros d Hnd Hi; simpl in *; [tauto|].
  inversion Hnd as [|? ? Hni Hnd']; subst.
  destruct Hi as [[= -> ->]|Hi]; [|auto].
  fold (dict_update (dict_set key v d) o).
  rewrite dict_update_get_other by assumption.
  now rewrite dict_get_set, py_eqb_refl.
Qed.

Lemma dict_update_keys key d other :
  In key (dict_keys (dict_update d other)) ->
  In key (dict_keys d) \/ In key (dict_keys other).
Proof.
  unfold dict_update. revert d.
  induction other as [|[k1 v1] o IH]; intros d; simpl; [now left|].
  intros Hi. apply IH in Hi. rewrite dict_keys_set in Hi.
  destruct Hi as [[->|Hi]|Hi]; auto.
Qed.

End DictFacts.

(** A loop over [range(n)] keeps an invariant indexed by the position. *)
Lemma fold_seq_invariant {S : Type} (body : S -> nat -> S) (P : nat -> S -> Prop)
  (n : nat) (s0 : S) :
  P 0 s0 ->
  (forall i s, i < n -> P i s -> P (1 + i) (body s i)) ->
  P n (fold_left body (seq 0 n) s0).
Proof.
  intros H0 Hstep. induction n as [|n IH].
  - exact H0.
  - rewrite seq_S, fold_left_app. simpl. apply Hstep; [lia|].
    apply IH. intros i s Hi. apply Hstep; lia.
Qed.

(** ** Rule names *)

Lemma rule_name_inj i j : rule_name i = rule_name j -> i = j.
Proof.
  unfold rule_name. intros [= He].
  apply (f_equal NilEmpty.uint_of_string) in He.
  rewrite !NilEmpty.usu in He. injection He as He.
  now apply DecimalNat.Unsigned.to_uint_inj.
Qed.

(** ** Indexing *)

Lemma getitem_in_range string (i : nat) :
  getitem string (Z.of_nat i) = nth i string (SInt 0).
Proof.
  unfold getitem. destruct (Z.ltb_spec (Z.of_nat i) 0); [lia|].
  now rewrite Nat2Z.id.
Qed.

Lemma getitem_succ string (i : nat) :
  getitem string (Z.of_nat i + 1) = nth (S i) string (SInt 0).
Proof.
  replace (Z.of_nat i + 1)%Z with (Z.of_nat (S i)) by lia.
  apply getitem_in_range.
Qed.

(** At [ix = 0] the index [ix - 1] is [-1]: the last element. *)
Lemma getitem_last string :
  getitem string (Z.of_nat 0 - 1) = nth (length string - 1) string (SInt 0).
Proof.
  unfold getitem. change (Z.of_nat 0 - 1 <? 0)%Z with true. cbv iota.
  f_equal. lia.
Qed.

Lemma getitem_pred string (i : nat) :
  0 < i -> getitem string (Z.of_nat i - 1) = nth (i - 1) string (SInt 0).
Proof.
  intros Hi. replace (Z.of_nat i - 1)%Z with (Z.of_nat (i - 1)) by lia.
  apply getitem_in_range.
Qed.

Lemma nth_app_here (pre : list symbol) x t :
  nth (length pre) (pre ++ x :: t) (SInt 0) = x.
Proof. apply nth_middle. Qed.

Lemma nth_app_next (pre : list symbol) x y t :
  nth (S (length pre)) (pre ++ x :: y :: t) (SInt 0) = y.
Proof.
  replace (pre ++ x :: y :: t) with ((pre ++ [x]) ++ y :: t)
    by (now rewrite <- app_assoc).
  replace (S (length pre)) with (length (pre ++ [x]))
    by (rewrite length_app; simpl; lia).
  apply nth_middle.
Qed.

Lemma list_ind2 {A} (P : list A -> Prop) :
  P [] -> (forall x, P [x]) ->
  (forall x y t, P t -> P (y :: t) -> P (x :: y :: t)) ->
  forall l, P l.
Proof.
  intros Hnil Hone Hstep.
  assert (Hboth : forall l, P l /\ forall x, P (x :: l)).
  { induction l as [|y t [IH1 IH2]]; split; auto. }
  intros l; apply Hboth.
Qed.

(** ** defaultdict *)

Lemma dd_add_keys {K} `{PyEqLaws K} (key key' : K) delta (d : dict K Z) :
  In key' (dict_keys (dd_add key delta d))
  <-> key' = key \/ In key' (dict_keys d).
Proof.
  unfold dd_add, dd_getitem.
  destruct (dict_get key d) eqn:Hg; rewrite !dict_keys_set; tauto.
Qed.

Lemma dd_add_get {K} `{PyEqLaws K} (key key' : K) delta (d : dict K Z) :
  dict_get key' (dd_add key delta d)
  = if py_eqb key' key
    then Some (match dict_get key d with Some v => v | None => 0 end + delta)%Z
    else dict_get key' d.
Proof.
  unfold dd_add, dd_getitem.
  destruct (dict_get key d) eqn:Hg; rewrite !dict_get_set;
    destruct (py_eqb key' key); reflexivity.
Qed.

(** ** The rewriter as a recursion on the sequence *)

Lemma rewrite_fold string reverse_rules suf : forall pre st,
  string = pre ++ suf ->
  new_string (fold_left (rewrite_body string reverse_rules)
                        (seq (length pre) (length suf)) st)
  = new_string st ++ (if skip_next_element st
                      then rewrite_rec reverse_rules (tl suf)
                      else rewrite_rec reverse_rules suf).
Proof.
  induction suf as [|x t IH]; intros pre st Hs.
  - simpl. destruct (skip_next_element st); simpl; now rewrite app_nil_r.
  - assert (Hs' : string = (pre ++ [x]) ++ t) by (now rewrite <- app_assoc).
    assert (Hl : S (length pre) = length (pre ++ [x]))
      by (rewrite length_app; simpl; lia).
    cbn [length seq fold_left]. rewrite Hl, (IH _ _ Hs'). clear IH.
    remember (rewrite_body string reverse_rules st (length pre)) as st1 eqn:E.
    unfold rewrite_body in E.
    destruct (skip_next_element st) eqn:Hskip.
    + subst st1; reflexivity.
    + rewrite getitem_in_range, getitem_succ in E.
      assert (Hx : nth (length pre) string (SInt 0) = x)
        by (rewrite Hs; apply nth_app_here).
      rewrite Hx in E.
      destruct t as [|y t'].
      * assert (Hlen : (Z.of_nat (length pre) =? Z.of_nat (length string) - 1)%Z
                       = true).
        { apply Z.eqb_eq. rewrite Hs, length_app. simpl. lia. }
        rewrite Hlen in E. subst st1. cbn. now rewrite <- app_assoc.
      * assert (Hlen : (Z.of_nat (length pre) =? Z.of_nat (length string) - 1)%Z
                       = false).
        { apply Z.eqb_neq. rewrite Hs, length_app. simpl. lia. }
        assert (Hy : nth (S (length pre)) string (SInt 0) = y)
          by (rewrite Hs; apply nth_app_next).
        rewrite Hlen, Hy in E. cbn [rewrite_rec].
        destruct (dict_get (x, y) reverse_rules) as [result|]; subst st1;
          cbn [new_string skip_next_element tl]; now rewrite <- app_assoc.
Qed.

Lemma convert_a_string_rewrite_rec string reverse_rules :
  fst (convert_a_string_using_reverse_rules string reverse_rules)
  = rewrite_rec reverse_rules string.
Proof.
  unfold convert_a_string_using_reverse_rules. cbn [fst].
  exact (rewrite_fold reverse_rules string [] rewrite_init eq_refl).
Qed.

Lemma rewrite_rec_length reverse_rules l :
  length (rewrite_rec reverse_rules l) <= length l.
Proof.
  induction l as [| x | x y t IH1 IH2] using list_ind2; simpl; try lia.
  destruct (dict_get (x, y) reverse_rules); simpl in *; lia.
Qed.

Lemma rewrite_rec_same_or_shorter reverse_rules l :
  rewrite_rec reverse_rules l = l
  \/ length (rewrite_rec reverse_rules l) < length l.
Proof.
  induction l as [| x | x y t IH1 IH2] using list_ind2; simpl; auto.
  destruct (dict_get (x, y) reverse_rules).
  - right. pose proof (rewrite_rec_length reverse_rules t). simpl; lia.
  - destruct IH2 as [IH2|IH2]; simpl in *; [left; congruence|right; lia].
Qed.

Lemma rewrite_rec_no_rules l : rewrite_rec [] l = l.
Proof.
  induction l as [| x | x y t IH1 IH2] using list_ind2; simpl; auto.
  simpl in IH2. congruence.
Qed.

Lemma rewrite_rec_not_nil reverse_rules l :
  l <> [] -> rewrite_rec reverse_rules l <> [].
Proof.
  destruct l as [|x [|y t]]; simpl; try congruence.
  destruct (dict_get (x, y) reverse_rules); discriminate.
Qed.

(** A pair of the reverse lookup that occurs in the sequence is replaced
    somewhere: the output is strictly shorter. *)
Lemma rewrite_rec_shrinks reverse_rules l : forall i,
  S i < length l ->
  dict_get (nth i l (SInt 0), nth (S i) l (SInt 0)) reverse_rules <> None ->
  length (rewrite_rec reverse_rules l) < length l.
Proof.
  induction l as [| x | x y t IH1 IH2] using list_ind2; intros i Hi Hg;
    simpl in Hi; try lia.
  change (rewrite_rec reverse_rules (x :: y :: t))
    with (match dict_get (x, y) reverse_rules with
          | Some result => result :: rewrite_rec reverse_rules t
          | None => x :: rewrite_rec reverse_rules (y :: t)
          end).
  destruct (dict_get (x, y) reverse_rules) eqn:Hxy.
  - pose proof (rewrite_rec_length reverse_rules t). simpl; lia.
  - destruct i as [|i]; [simpl in Hg; congruence|].
    assert (Hlt : length (rewrite_rec reverse_rules (y :: t)) < length (y :: t))
      by (apply (IH2 i); [simpl in *; lia|exact Hg]).
    cbn [length] in *. lia.
Qed.

(** The keys counted by the rewriter are rule names of the reverse lookup,
    found at a pair of the sequence. *)
Lemma rewrite_usage_keys string reverse_rules key :
  In key (dict_keys (snd (convert_a_string_using_reverse_rules
                            string reverse_rules))) ->
  exists x y, dict_get (x, y) reverse_rules = Some key
              /\ In x string /\ In y string.
Proof.
  unfold convert_a_string_using_reverse_rules. cbn [snd].
  revert key.
  apply (fold_seq_invariant (rewrite_body string reverse_rules)
           (fun _ st => forall key, In key (dict_keys (rules_usage_count st)) ->
              exists x y, dict_get (x, y) reverse_rules = Some key
                          /\ In x string /\ In y string)).
  - simpl; tauto.
  - intros i st Hi Hinv key. unfold rewrite_body.
    destruct (skip_next_element st); cbn [rules_usage_count]; auto.
    destruct (Z.eqb_spec (Z.of_nat i) (Z.of_nat (length string) - 1));
      cbn [rules_usage_count]; auto.
    rewrite getitem_in_range, getitem_succ.
    destruct (dict_get (nth i string (SInt 0), nth (S i) string (SInt 0))
                       reverse_rules) as [result|] eqn:Hg;
      cbn [rules_usage_count]; auto.
    rewrite dd_add_keys. intros [->|Hk]; auto.
    eexists _, _; split; [exact Hg|].
    split; apply nth_In; lia.
Qed.

(** ** Layer builder *)

Lemma dd_getitem_fst {K} `{PyEqLaws K} (key : K) d :
  fst (dd_getitem key d) = dd_value key d.
Proof. unfold dd_getitem, dd_value. now destruct (dict_get key d). Qed.

Lemma dd_getitem_snd {K} `{PyEqLaws K} (key key' : K) d :
  dd_value key' (snd (dd_getitem key d)) = dd_value key' d.
Proof.
  unfold dd_getitem, dd_value. destruct (dict_get key d) eqn:Hg; simpl; auto.
  rewrite dict_get_set. destruct (py_eqb_spec key' key) as [->|]; auto.
  now rewrite Hg.
Qed.

Lemma dd_value_add {K} `{PyEqLaws K} (key key' : K) delta d :
  dd_value key' (dd_add key delta d)
  = if py_eqb key' key then (dd_value key d + delta)%Z else dd_value key' d.
Proof.
  unfold dd_value at 1. rewrite dd_add_get.
  destruct (py_eqb key' key); reflexivity.
Qed.

Lemma occurrences_upto_S p string i :
  occurrences_upto p string (S i)
  = occurrences_upto p string i
    + (if py_eqb p (pair_at string i) then 1 else 0).
Proof.
  unfold occurrences_upto. rewrite seq_S, filter_app, length_app.
  cbn [filter Nat.add]. now destruct (py_eqb p (pair_at string i)).
Qed.

Lemma occurrences_upto_mono p string i j :
  i <= j -> occurrences_upto p string i <= occurrences_upto p string j.
Proof.
  induction 1 as [|j Hle IH]; [lia|]. rewrite occurrences_upto_S. lia.
Qed.

Lemma layer_body_unfold string st ix :
  layer_body string st ix =
  if skip_next_symbol st then
    {| pairs_of_symbols := pairs_of_symbols st; last_pair := last_pair st;
       skip_next_symbol := false; rules := rules st; engine := engine st |}
  else if py_eqb (nth (S ix) string (SInt 0))
                 (end_of_episode_symbol (engine st)) then st
  else
    let pair := pair_at string ix in
    let cl := counted pair st in
    let cc := dd_getitem pair (fst cl) in
    if (k (engine st) <=? fst cc)%Z then
      let counts :=
        dd_add (getitem string (Z.of_nat ix - 1), nth ix string (SInt 0))
               (-1) (snd cc) in
      if negb (existsb (py_eqb pair) (dict_values (rules st))) then
        {| pairs_of_symbols := counts; last_pair := snd cl;
           skip_next_symbol := true;
           rules := dict_set (rule_name (next_rule_name_ix (engine st)))
                             pair (rules st);
           engine := snd (get_next_rule_name (engine st)) |}
      else
        {| pairs_of_symbols := counts; last_pair := snd cl;
           skip_next_symbol := true; rules := rules st;
           engine := engine st |}
    else
      {| pairs_of_symbols := snd cc; last_pair := snd cl;
         skip_next_symbol := false; rules := rules st;
         engine := engine st |}.
Proof.
  unfold layer_body, counted, pair_at.
  rewrite getitem_in_range, getitem_succ.
  destruct (skip_next_symbol st); [reflexivity|].
  destruct (py_eqb _ (end_of_episode_symbol (engine st))); [reflexivity|].
  set (pair := (nth ix string (SInt 0), nth (S ix) string (SInt 0))).
  destruct (option_eqb (Some pair) (last_pair st)); cbn [negb fst snd].
  - destruct (dd_getitem pair (pairs_of_symbols st)) as [count counts].
    reflexivity.
  - destruct (dd_getitem pair (dd_add pair 1 (pairs_of_symbols st)))
      as [count counts].
    reflexivity.
Qed.

Lemma counted_value pair st p :
  (dd_value p (fst (counted pair st))
   <= dd_value p (pairs_of_symbols st) + (if py_eqb p pair then 1 else 0))%Z.
Proof.
  unfold counted. destruct (negb _); cbn [fst].
  - rewrite dd_value_add. destruct (py_eqb_spec p pair) as [->|]; lia.
  - destruct (py_eqb p pair); lia.
Qed.

Lemma rule_name_fresh c n :
  ~ In (rule_name (c + n)) (map rule_name (seq c n)).
Proof.
  rewrite in_map_iff. intros [j [He Hj]]. apply rule_name_inj in He.
  apply in_seq in Hj. lia.
Qed.

Lemma layer_inv_init self string : layer_inv self string 0 (layer_init self).
Proof.
  constructor; simpl; auto; try tauto; try lia.
  - now rewrite Nat.sub_diag.
  - intros p. unfold dd_value. simpl. lia.
Qed.

Lemma layer_inv_weaken self string i st :
  layer_inv self string i st ->
  forall st', rules st' = rules st -> engine st' = engine st ->
  (forall p, (dd_value p (pairs_of_symbols st')
              <= dd_value p (pairs_of_symbols st)
                 + (if py_eqb p (pair_at string i) then 1 else 0))%Z) ->
  layer_inv self string (S i) st'.
Proof.
  intros [Hk He Hix Hkeys Hp Hc Ht] st' Hr Hen Hcnt.
  constructor; rewrite ?Hr, ?Hen; auto.
  - intros name p Hi. destruct (Hp _ _ Hi) as [j [Hj Hpj]]. exists j; split; [lia|auto].
  - intros p. specialize (Hcnt p). specialize (Hc p).
    rewrite occurrences_upto_S.
    destruct (py_eqb p (pair_at string i)); lia.
  - intros name p Hi. specialize (Ht _ _ Hi).
    pose proof (occurrences_upto_mono p string (Nat.le_succ_diag_r i)). lia.
Qed.

Lemma layer_inv_step self string i st :
  layer_inv self string i st ->
  layer_inv self string (S i) (layer_body string st i).
Proof.
  intros Hinv. rewrite layer_body_unfold.
  destruct (skip_next_symbol st).
  { apply (layer_inv_weaken Hinv); auto.
    intros p; cbn [pairs_of_symbols].
    destruct (py_eqb p (pair_at string i)); lia. }
  destruct (py_eqb _ (end_of_episode_symbol (engine st))).
  { apply (layer_inv_weaken Hinv); auto.
    intros p. destruct (py_eqb p (pair_at string i)); lia. }
  cbv zeta.
  set (pair := pair_at string i).
  set (cl := counted pair st).
  set (cc := dd_getitem pair (fst cl)).
  assert (Hcc : forall p, (dd_value p (snd cc)
            <= dd_value p (pairs_of_symbols st)
               + (if py_eqb p pair then 1 else 0))%Z).
  { intros p. unfold cc. rewrite dd_getitem_snd. apply counted_value. }
  assert (Hdec : forall q p, (dd_value p (dd_add q (-1) (snd cc))
            <= dd_value p (pairs_of_symbols st)
               + (if py_eqb p pair then 1 else 0))%Z).
  { intros q p. rewrite dd_value_add. specialize (Hcc p).
    destruct (py_eqb_spec p q) as [->|]; lia. }
  destruct (Z.leb_spec (k (engine st)) (fst cc)) as [Hge|Hlt].
  2:{ apply (layer_inv_weaken Hinv); auto. }
  destruct (negb (existsb (py_eqb pair) (dict_values (rules st)))).
  2:{ apply (layer_inv_weaken Hinv); auto. intros p; apply Hdec. }
  destruct Hinv as [Hk He Hix Hkeys Hp Hc Ht].
  assert (Hfresh : ~ In (rule_name (next_rule_name_ix (engine st)))
                        (dict_keys (rules st))).
  { rewrite Hkeys.
    replace (next_rule_name_ix (engine st))
      with (next_rule_name_ix self
            + (next_rule_name_ix (engine st) - next_rule_name_ix self)) at 1
      by lia.
    apply rule_name_fresh. }
  assert (Hthr : (k self <= Z.of_nat (occurrences_upto pair string (S i)))%Z).
  { rewrite <- Hk. unfold cc in Hge. rewrite dd_getitem_fst in Hge.
    pose proof (counted_value pair st pair) as Hv. fold cl in Hv.
    specialize (Hc pair). rewrite occurrences_upto_S.
    fold pair. rewrite py_eqb_refl in *. lia. }
  constructor; cbn [pairs_of_symbols rules engine get_next_rule_name snd
                    k end_of_episode_symbol next_rule_name_ix]; auto.
  - rewrite dict_set_fresh by assumption.
    unfold dict_keys in *. rewrite map_app, Hkeys. cbn [map fst].
    replace (S (next_rule_name_ix (engine st)) - next_rule_name_ix self)
      with (S (next_rule_name_ix (engine st) - next_rule_name_ix self)) by lia.
    rewrite seq_S, map_app. cbn [map]. do 3 f_equal. lia.
  - rewrite dict_set_fresh by assumption. intros name p Hi.
    apply in_app_or in Hi. destruct Hi as [Hi|[[= <- <-]|[]]].
    + destruct (Hp _ _ Hi) as [j [Hj Hpj]]. exists j; split; [lia|auto].
    + exists i; split; [lia|reflexivity].
  - intros p. specialize (Hdec (getitem string (Z.of_nat i - 1),
                               nth i string (SInt 0)) p).
    specialize (Hc p). rewrite occurrences_upto_S. fold pair.
    destruct (py_eqb p pair); lia.
  - rewrite dict_set_fresh by assumption. intros name p Hi.
    apply in_app_or in Hi. destruct Hi as [Hi|[[= <- <-]|[]]].
    + specialize (Ht _ _ Hi).
      pose proof (occurrences_upto_mono p string (Nat.le_succ_diag_r i)). lia.
    + exact Hthr.
Qed.

Lemma layer_scan_inv self string :
  layer_inv self string (length string - 1) (layer_scan self string).
Proof.
  unfold layer_scan.
  apply (fold_seq_invariant (layer_body string) (layer_inv self string)).
  - apply layer_inv_init.
  - intros i st _. apply layer_inv_step.
Qed.

(** What [generate_1_layer_of_rules] returns. *)

Lemma invert_rules_get_In (rs : dict symbol sympair) : forall acc p name,
  dict_get p (fold_left (fun acc kv => dict_set (snd kv) (fst kv) acc) rs acc)
  = Some name ->
  In (name, p) rs \/ dict_get p acc = Some name.
Proof.
  induction rs as [|[k1 v1] rs IH]; intros acc p name; simpl; auto.
  intros Hg. apply IH in Hg. destruct Hg as [Hg|Hg]; auto.
  rewrite dict_get_set in Hg.
  destruct (py_eqb_spec p v1) as [->|]; auto.
  injection Hg as ->. auto.
Qed.

Lemma invert_rules_keeps (rs : dict symbol sympair) : forall acc p,
  dict_get p acc <> None ->
  dict_get p (fold_left (fun acc kv => dict_set (snd kv) (fst kv) acc) rs acc)
  <> None.
Proof.
  induction rs as [|[k1 v1] rs IH]; intros acc p Hg; simpl; auto.
  apply IH. rewrite dict_get_set. now destruct (py_eqb p v1).
Qed.

Lemma invert_rules_In_get (rs : dict symbol sympair) : forall acc p name,
  In (name, p) rs ->
  dict_get p (fold_left (fun acc kv => dict_set (snd kv) (fst kv) acc) rs acc)
  <> None.
Proof.
  induction rs as [|[k1 v1] rs IH]; intros acc p name; simpl; [tauto|].
  intros [[= -> ->]|Hi]; [|eauto].
  apply invert_rules_keeps. now rewrite dict_get_set, py_eqb_refl.
Qed.

Section LayerResult.
Variables (self : k_Sequitur) (string : list symbol).

Let rs := fst (fst (generate_1_layer_of_rules self string)).
Let reverse_rules := snd (fst (generate_1_layer_of_rules self string)).
Let self' := snd (generate_1_layer_of_rules self string).

Ltac layer_unfold :=
  unfold rs, reverse_rules, self', generate_1_layer_of_rules in *;
  cbn [fst snd] in *.

Lemma layer_rules_keys key :
  In key (dict_keys rs) ->
  exists j, key = rule_name j
            /\ next_rule_name_ix self <= j < next_rule_name_ix self'.
Proof.
  layer_unfold.
  destruct (layer_scan_inv self string) as [_ _ Hix Hkeys _ _ _].
  rewrite Hkeys, in_map_iff. intros [j [<- Hj]]. apply in_seq in Hj.
  exists j; split; [reflexivity|lia].
Qed.

Lemma layer_rules_NoDup : NoDup (dict_keys rs).
Proof.
  layer_unfold.
  destruct (layer_scan_inv self string) as [_ _ _ Hkeys _ _ _].
  rewrite Hkeys. apply Injective_map_NoDup; [|apply seq_NoDup].
  intros i j. apply rule_name_inj.
Qed.

Lemma layer_engine :
  k self' = k self
  /\ end_of_episode_symbol self' = end_of_episode_symbol self
  /\ next_rule_name_ix self <= next_rule_name_ix self'.
Proof.
  layer_unfold.
  destruct (layer_scan_inv self string) as [Hk He Hix _ _ _ _]. auto.
Qed.

Lemma layer_reverse_rules p name :
  dict_get p reverse_rules = Some name -> dict_get name rs = Some p.
Proof.
  intros Hg. apply In_dict_get; [apply layer_rules_NoDup|].
  layer_unfold. unfold invert_rules in Hg.
  apply invert_rules_get_In in Hg. destruct Hg as [Hi|Hg]; [|discriminate].
  exact Hi.
Qed.

Lemma layer_rules_occur name p :
  In (name, p) rs ->
  exists i, S i < length string /\ p = pair_at string i
            /\ dict_get (pair_at string i) reverse_rules <> None.
Proof.
  layer_unfold. intros Hi.
  destruct (layer_scan_inv self string) as [_ _ _ _ Hp _ _].
  destruct (Hp _ _ Hi) as [i [Hlt ->]]. exists i.
  split; [lia|split; [reflexivity|]].
  unfold invert_rules. eapply invert_rules_In_get; eauto.
Qed.

Lemma layer_no_rules : rs = [] -> reverse_rules = [].
Proof. layer_unfold. now intros ->. Qed.

Lemma layer_threshold name p :
  In (name, p) rs -> (k self <= Z.of_nat (pair_occurrences p string))%Z.
Proof.
  layer_unfold. intros Hi.
  destruct (layer_scan_inv self string) as [_ _ _ _ _ _ Ht]. eauto.
Qed.

(** One layer: the rewritten sequence is never longer, it is shorter as
    soon as a rule was minted, and it is the same sequence exactly when
    no rule was minted. *)

Lemma layer_rewrite_shrinks :
  rs <> [] -> length (rewrite_rec reverse_rules string) < length string.
Proof.
  intros Hne. destruct rs as [|[name p] rest] eqn:Hrs; [congruence|].
  destruct (layer_rules_occur name p) as [i [Hi [_ Hg]]].
  { fold rs. rewrite Hrs. now left. }
  eapply rewrite_rec_shrinks; eauto.
Qed.

Lemma layer_rewrite_same_iff :
  rewrite_rec reverse_rules string = string <-> rs = [].
Proof.
  split.
  - intros Heq. destruct rs as [|[name p] rest] eqn:Hrs; [reflexivity|].
    assert (Hlt : length (rewrite_rec reverse_rules string) < length string)
      by (apply layer_rewrite_shrinks; rewrite Hrs; discriminate).
    rewrite Heq in Hlt. lia.
  - intros Hnil. rewrite (layer_no_rules Hnil). apply rewrite_rec_no_rules.
Qed.
End LayerResult.

(** ** Expander *)

Lemma Expands_mono rs rs' s raw :
  extends rs rs' -> Expands rs s raw -> Expands rs' s raw.
Proof. intros Hext. induction 1; eauto with expands. Qed.

Lemma ExpandsL_mono rs rs' l raw :
  extends rs rs' -> ExpandsL rs l raw -> ExpandsL rs' l raw.
Proof.
  intros Hext. induction 1; eauto using Expands_mono with expands.
Qed.

Lemma ExpandsL_ints rs zs : ExpandsL rs (map SInt zs) (map SInt zs).
Proof.
  induction zs as [|z zs IH]; simpl; [constructor|].
  change (SInt z :: map SInt zs) with ([SInt z] ++ map SInt zs) at 2.
  eauto with expands.
Qed.

Lemma ExpandsL_In rs l raw s :
  ExpandsL rs l raw -> In s l -> exists r, Expands rs s r.
Proof.
  induction 1 as [|s' l r rs' He Hl IH]; simpl; [tauto|].
  intros [->|Hi]; eauto.
Qed.

(** Rewriting with a reverse lookup whose rules are in the table keeps the
    raw sequence that the symbols stand for. *)
Lemma ExpandsL_rewrite rs reverse_rules l :
  (forall x y r, dict_get (x, y) reverse_rules = Some r ->
                 dict_get r rs = Some (x, y)) ->
  forall raw, ExpandsL rs l raw ->
              ExpandsL rs (rewrite_rec reverse_rules l) raw.
Proof.
  intros Hrr.
  induction l as [| x | x y t IH1 IH2] using list_ind2; intros raw Hl;
    try exact Hl.
  change (rewrite_rec reverse_rules (x :: y :: t))
    with (match dict_get (x, y) reverse_rules with
          | Some result => result :: rewrite_rec reverse_rules t
          | None => x :: rewrite_rec reverse_rules (y :: t)
          end).
  inversion Hl as [|? ? rx rest Hx Hyt]; subst.
  destruct (dict_get (x, y) reverse_rules) as [r|] eqn:Hg.
  - inversion Hyt as [|? ? ry rt Hy Ht]; subst.
    rewrite app_assoc. eauto with expands.
  - eauto with expands.
Qed.

Lemma expand_pass_app rs l1 l2 :
  expand_pass rs (l1 ++ l2) = expand_pass rs l1 ++ expand_pass rs l2.
Proof. apply flat_map_app. Qed.

Lemma iter_expand_pass_app rs n l1 l2 :
  Nat.iter n (expand_pass rs) (l1 ++ l2)
  = Nat.iter n (expand_pass rs) l1 ++ Nat.iter n (expand_pass rs) l2.
Proof.
  induction n as [|n IH]; simpl; [reflexivity|].
  now rewrite IH, expand_pass_app.
Qed.

Lemma iter_fixed {A} (f : A -> A) x n : f x = x -> Nat.iter n f x = x.
Proof. intros Hf. induction n as [|n IH]; simpl; congruence. Qed.

Lemma iter_stable {A} (f : A -> A) x y d n :
  Nat.iter d f x = y -> f y = y -> d <= n -> Nat.iter n f x = y.
Proof.
  intros Hd Hf Hle. replace n with ((n - d) + d) by lia.
  rewrite Nat.iter_add, Hd. now apply iter_fixed.
Qed.

Lemma Expands_iter rs s raw :
  ints_are_raw rs -> Expands rs s raw ->
  exists d, Nat.iter d (expand_pass rs) [s] = raw
            /\ expand_pass rs raw = raw.
Proof.
  intros Hraw. induction 1 as [z|name a b la lb Hg Ha [da [IHa Fa]] Hb [db [IHb Fb]]].
  - exists 0. split; [reflexivity|]. unfold expand_pass. simpl.
    now rewrite Hraw.
  - exists (S (Nat.max da db)). split.
    + rewrite Nat.iter_succ_r. unfold expand_pass at 2. simpl. rewrite Hg.
      cbn [fst snd app].
      change [a; b] with ([a] ++ [b]). rewrite iter_expand_pass_app.
      f_equal; eapply iter_stable; eauto; lia.
    + rewrite expand_pass_app. congruence.
Qed.

Lemma expand_loop_S fuel rs x :
  expand_loop (S fuel) rs x
  = if py_eqb (expand_pass rs x) x then Some (expand_pass rs x)
    else expand_loop fuel rs (expand_pass rs x).
Proof. reflexivity. Qed.

Lemma expand_loop_iter rs raw : forall d x,
  Nat.iter d (expand_pass rs) x = raw -> expand_pass rs raw = raw ->
  forall fuel, d < fuel -> expand_loop fuel rs x = Some raw.
Proof.
  induction d as [|d IH]; intros x Hd Hf fuel Hlt;
    (destruct fuel as [|fuel]; [lia|]); rewrite expand_loop_S.
  - simpl in Hd. subst x. now rewrite Hf, py_eqb_refl.
  - rewrite Nat.iter_succ_r in Hd.
    destruct (py_eqb_spec (expand_pass rs x) x) as [He|Hne].
    + rewrite He in *. f_equal.
      rewrite <- Hd. symmetry. now apply iter_fixed.
    + apply IH; auto. lia.
Qed.

Lemma Expands_convert rs s raw :
  ints_are_raw rs -> Expands rs s raw ->
  exists d, forall fuel, d < fuel ->
    convert_symbol_to_raw_actions fuel s rs = Some raw.
Proof.
  intros Hraw He. destruct (Expands_iter Hraw He) as [d [Hd Hf]].
  exists d. intros fuel Hlt. unfold convert_symbol_to_raw_actions.
  eapply expand_loop_iter; eauto.
Qed.

Lemma ExpandsL_convert rs l raw :
  ints_are_raw rs -> ExpandsL rs l raw ->
  exists d, forall fuel, d < fuel ->
    exists raws,
      Forall2 (fun s r => convert_symbol_to_raw_actions fuel s rs = Some r)
              l raws
      /\ concat raws = raw.
Proof.
  intros Hraw. induction 1 as [|s l r rest He Hl [d2 IH]].
  - exists 0. intros fuel _. exists []. split; constructor.
  - destruct (Expands_convert Hraw He) as [d1 H1].
    exists (Nat.max d1 d2). intros fuel Hlt.
    destruct (IH fuel) as [raws [Hf Hc]]; [lia|].
    exists (r :: raws). split; [constructor; auto; apply H1; lia|].
    simpl. congruence.
Qed.

(** ** Fixpoint driver *)

Lemma add_usage_keys (counts : dict symbol Z) : forall usage key,
  In key (dict_keys (add_usage usage counts)) ->
  In key (dict_keys usage) \/ In key (dict_keys counts).
Proof.
  unfold add_usage.
  induction counts as [|[k1 v1] counts IH]; intros usage key; simpl; auto.
  intros Hi. apply IH in Hi. rewrite dd_add_keys in Hi.
  destruct Hi as [[->|Hi]|Hi]; auto.
Qed.

(** The parts of [driver_body]. *)
Lemma driver_body_unfold st :
  let layer := generate_1_layer_of_rules (self_ st) (current_actions st) in
  let out := convert_a_string_using_reverse_rules
               (current_actions st) (snd (fst layer)) in
  driver_body st
  = {| all_rules := dict_update (all_rules st) (fst (fst layer));
       rule_usage := add_usage (rule_usage st) (snd out);
       current_actions := rewrite_rec (snd (fst layer)) (current_actions st);
       self_ := snd layer |}.
Proof.
  cbv zeta. unfold driver_body.
  rewrite <- convert_a_string_rewrite_rec.
  destruct (generate_1_layer_of_rules (self_ st) (current_actions st))
    as [[rs rr] self'].
  cbn [fst snd].
  now destruct (convert_a_string_using_reverse_rules (current_actions st) rr).
Qed.

Lemma driver_inv_ints_are_raw actions st :
  driver_inv actions st -> ints_are_raw (all_rules st).
Proof.
  intros Hinv z. apply dict_get_None. intros Hi.
  destruct (di_keys Hinv _ Hi) as [j [He _]]. discriminate.
Qed.

Lemma driver_inv_init self zs : driver_inv (ints zs) (driver_init self (ints zs)).
Proof.
  constructor; simpl; try tauto; try lia.
  apply ExpandsL_ints.
Qed.

Lemma driver_inv_step actions st :
  driver_inv actions st -> driver_inv actions (driver_body st).
Proof.
  intros Hinv. rewrite driver_body_unfold. cbv zeta.
  set (self := self_ st). set (cur := current_actions st).
  pose proof (layer_rules_keys self cur) as Hkeys.
  pose proof (layer_rules_NoDup self cur) as Hnd.
  pose proof (layer_engine self cur) as [_ [_ Hix]].
  pose proof (@layer_reverse_rules self cur) as Hrr.
  pose proof (@layer_rewrite_shrinks self cur) as Hshrink.
  pose proof (rewrite_rec_length
                (snd (fst (generate_1_layer_of_rules self cur))) cur) as Hlen.
  set (rs := fst (fst (generate_1_layer_of_rules self cur))) in *.
  set (rr := snd (fst (generate_1_layer_of_rules self cur))) in *.
  set (self' := snd (generate_1_layer_of_rules self cur)) in *.
  assert (Hext : extends (all_rules st) (dict_update (all_rules st) rs)).
  { intros name v Hg. rewrite dict_update_get_other; auto.
    intros Hi. destruct (Hkeys _ Hi) as [j [-> Hj]].
    destruct (di_keys Hinv _ (dict_get_Some_key _ _ Hg)) as [j' [He Hj']].
    apply rule_name_inj in He. subst self. lia. }
  assert (Hnew : forall x y r, dict_get (x, y) rr = Some r ->
            dict_get r (dict_update (all_rules st) rs) = Some (x, y)).
  { intros x y r Hg. apply dict_update_get_new; auto.
    apply dict_get_In. now apply Hrr. }
  assert (Hcur : ExpandsL (dict_update (all_rules st) rs) cur actions)
    by (eapply ExpandsL_mono; [exact Hext|apply (di_expands Hinv)]).
  constructor; cbn [all_rules rule_usage current_actions self_].
  - intros key Hi. apply dict_update_keys in Hi. destruct Hi as [Hi|Hi].
    + destruct (di_keys Hinv _ Hi) as [j [-> Hj]]. exists j. subst self.
      split; [reflexivity|lia].
    + destruct (Hkeys _ Hi) as [j [-> Hj]]. exists j.
      split; [reflexivity|lia].
  - now apply ExpandsL_rewrite.
  - intros key Hi. apply add_usage_keys in Hi. destruct Hi as [Hi|Hi].
    + destruct (di_usage Hinv _ Hi) as [raw He]. exists raw.
      eapply Expands_mono; eauto.
    + apply rewrite_usage_keys in Hi. destruct Hi as [x [y [Hg [Hx Hy]]]].
      destruct (@ExpandsL_In _ _ _ x Hcur Hx) as [rx Hex].
      destruct (@ExpandsL_In _ _ _ y Hcur Hy) as [ry Hey].
      exists (rx ++ ry). eapply Expands_rule; eauto.
  - pose proof (di_length Hinv). subst cur. lia.
  - intros Hne. pose proof (di_length Hinv) as Hl.
    destruct (all_rules st) as [|kv rest] eqn:Hall.
    + destruct rs as [|kv rest]; [now cbn in Hne|].
      assert (Hs : length (rewrite_rec rr cur) < length cur)
        by (apply Hshrink; discriminate).
      subst cur. lia.
    + assert (Hs : length (current_actions st) < length actions)
        by (apply (di_strict Hinv); rewrite Hall; discriminate).
      subst cur. lia.
Qed.

Lemma driver_loop_S fuel st :
  driver_loop (S fuel) st
  = if negb (py_eqb (current_actions (driver_body st)) (current_actions st))
    then driver_loop fuel (driver_body st)
    else Some (driver_body st).
Proof. reflexivity. Qed.

Lemma driver_loop_inv actions : forall fuel st st',
  driver_inv actions st -> driver_loop fuel st = Some st' ->
  driver_inv actions st'.
Proof.
  induction fuel as [|fuel IH]; intros st st' Hinv; simpl; [discriminate|].
  destruct (negb _).
  - apply IH. now apply driver_inv_step.
  - intros [= <-]. now apply driver_inv_step.
Qed.

Lemma driver_body_current st :
  current_actions (driver_body st) = current_actions st
  \/ length (current_actions (driver_body st)) < length (current_actions st).
Proof.
  rewrite driver_body_unfold. cbn [current_actions].
  apply rewrite_rec_same_or_shorter.
Qed.

Lemma driver_body_not_nil st :
  current_actions st <> [] -> current_actions (driver_body st) <> [].
Proof.
  rewrite driver_body_unfold. cbn [current_actions].
  apply rewrite_rec_not_nil.
Qed.

(** The loop ends within as many passes as the sequence has symbols. *)
Lemma driver_loop_terminates : forall fuel st,
  current_actions st <> [] -> length (current_actions st) <= fuel ->
  exists st', driver_loop fuel st = Some st'.
Proof.
  induction fuel as [|fuel IH]; intros st Hne Hlen.
  - destruct (current_actions st); [congruence|simpl in Hlen; lia].
  - rewrite driver_loop_S.
    destruct (py_eqb_spec (current_actions (driver_body st))
                          (current_actions st)) as [He|Hneq];
      cbn [negb]; [eauto|].
    apply IH; [now apply driver_body_not_nil|].
    destruct (driver_body_current st) as [He|Hlt]; [congruence|lia].
Qed.

Lemma driver_loop_more_fuel : forall fuel fuel' st st',
  driver_loop fuel st = Some st' -> fuel <= fuel' ->
  driver_loop fuel' st = Some st'.
Proof.
  induction fuel as [|fuel IH]; intros fuel' st st'; simpl; [discriminate|].
  intros Hl Hle. destruct fuel' as [|fuel']; [lia|]. simpl.
  destruct (negb _); [|exact Hl]. apply IH; [exact Hl|lia].
Qed.

Lemma build_action_usage_total rs usage :
  (forall key, In key (dict_keys usage) ->
     exists d, forall fuel, d < fuel ->
       exists raw, convert_symbol_to_raw_actions fuel key rs = Some raw) ->
  exists d, forall fuel, d < fuel -> forall acc,
    exists action_usage, build_action_usage fuel rs usage acc = Some action_usage.
Proof.
  induction usage as [|[key n] usage IH]; intros Hk.
  - exists 0. intros fuel _ acc. simpl. eauto.
  - destruct (Hk key) as [d1 H1]; [now left|].
    destruct IH as [d2 H2]; [intros key' Hi; apply Hk; now right|].
    exists (Nat.max d1 d2). intros fuel Hlt acc. simpl.
    destruct (H1 fuel) as [raw ->]; [lia|]. apply H2. lia.
Qed.

(** ** The entry point on integer actions *)

Lemma generate_action_grammar_unfold fuel self z zs :
  generate_action_grammar fuel self (ints (z :: zs))
  = match driver_loop fuel (driver_init self (ints (z :: zs))) with
    | None => (OutOfFuel, self)
    | Some st =>
        match build_action_usage fuel (all_rules st) (rule_usage st) [] with
        | None => (OutOfFuel, self_ st)
        | Some action_usage =>
            (Returns (current_actions st, all_rules st, action_usage), self_ st)
        end
    end.
Proof. reflexivity. Qed.

(** With enough fuel the call on a non-empty list of integers returns; the
    final state of the loop satisfies the driver invariant, and every
    symbol of the final sequence expands. *)
Lemma generate_action_grammar_ints self zs :
  zs <> [] ->
  exists n st,
    driver_inv (ints zs) st
    /\ forall fuel, n <= fuel ->
         driver_loop fuel (driver_init self (ints zs)) = Some st
         /\ exists action_usage,
              generate_action_grammar fuel self (ints zs)
              = (Returns (current_actions st, all_rules st, action_usage),
                 self_ st)
              /\ exists raws,
                   Forall2 (fun s r => convert_symbol_to_raw_actions
                                         fuel s (all_rules st) = Some r)
                           (current_actions st) raws
                   /\ concat raws = ints zs.
Proof.
  intros Hne. destruct zs as [|z zs]; [congruence|].
  set (actions := ints (z :: zs)).
  destruct (@driver_loop_terminates (length actions) (driver_init self actions))
    as [st Hloop]; [discriminate|reflexivity|].
  assert (Hinv : driver_inv actions st)
    by (eapply driver_loop_inv; [apply driver_inv_init|exact Hloop]).
  pose proof (driver_inv_ints_are_raw Hinv) as Hraw.
  destruct (build_action_usage_total (all_rules st) (rule_usage st))
    as [d1 Hbuild].
  { intros key Hi. destruct (di_usage Hinv _ Hi) as [raw He].
    destruct (Expands_convert Hraw He) as [d Hd]. exists d. eauto. }
  destruct (ExpandsL_convert Hraw (di_expands Hinv)) as [d2 Hexp].
  exists (Nat.max (length actions) (S (Nat.max d1 d2))), st.
  split; [exact Hinv|]. intros fuel Hfuel.
  assert (Hloop' : driver_loop fuel (driver_init self actions) = Some st)
    by (eapply driver_loop_more_fuel; [exact Hloop|lia]).
  split; [exact Hloop'|].
  destruct (Hbuild fuel) with (acc := @nil (list symbol * Z))
    as [action_usage Hau]; [lia|].
  exists action_usage. split.
  - unfold actions. rewrite generate_action_grammar_unfold.
    fold actions. now rewrite Hloop', Hau.
  - apply Hexp. lia.
Qed.

(** ** The usage map *)

Lemma build_action_usage_app fuel rs pre : forall rest acc action_usage,
  build_action_usage fuel rs (pre ++ rest) acc = Some action_usage ->
  exists acc', build_action_usage fuel rs pre acc = Some acc'
               /\ build_action_usage fuel rs rest acc' = Some action_usage.
Proof.
  induction pre as [|[key n] pre IH]; intros rest acc action_usage; simpl.
  - eauto.
  - destruct (convert_symbol_to_raw_actions fuel key rs); [|discriminate].
    apply IH.
Qed.

Lemma build_action_usage_other fuel rs raw post : forall acc action_usage,
  build_action_usage fuel rs post acc = Some action_usage ->
  (forall key n, In (key, n) post ->
     convert_symbol_to_raw_actions fuel key rs <> Some raw) ->
  dict_get raw action_usage = dict_get raw acc.
Proof.
  induction post as [|[key n] post IH]; intros acc action_usage; simpl.
  - now intros [= <-].
  - destruct (convert_symbol_to_raw_actions fuel key rs) as [raw'|] eqn:Hc;
      [|discriminate].
    intros Hb Hpost.
    rewrite (IH _ _ Hb)
      by (intros key' n' Hi; apply (Hpost key' n'); now right).
    rewrite dict_get_set, py_eqb_neq; [reflexivity|].
    intros ->. apply (Hpost key n); [now left|exact Hc].
Qed.

(** ** The examples of the specification *)

Example pair_occurrences_run :
  pair_occurrences (SInt 2, SInt 2) (ints [2; 2; 2; 2]%Z) = 3.
Proof. reflexivity. Qed.

(** [[0,1,2,0,1,2,2,2,2]] with [k = 2]: the rules [(0, 1)] and [(2, 2)]. *)
Example commented_out_example :
  fst (generate_action_grammar 10 (init 2 default_end_of_episode_symbol)
         (ints [0; 1; 2; 0; 1; 2; 2; 2; 2]%Z))
  = Returns ([SStr "R0"; SInt 2; SStr "R0"; SStr "R1"; SStr "R1"],
             [(SStr "R0", (SInt 0, SInt 1)); (SStr "R1", (SInt 2, SInt 2))],
             [([SInt 0; SInt 1], 2%Z); ([SInt 2; SInt 2], 2%Z)]).
Proof. vm_compute. reflexivity. Qed.

(** A single symbol: one layer, no rule, the output is the input. *)
Example single_symbol :
  generate_action_grammar 1 (init 2 default_end_of_episode_symbol) (ints [7%Z])
  = (Returns ([SInt 7], [], []), init 2 default_end_of_episode_symbol).
Proof. vm_compute. reflexivity. Qed.

(** * The claims *)

(** C1 (round-trip expansion).  For every non-empty list of integer actions
    and every [k >= 1], the call returns, and expanding each symbol of the
    final sequence through the returned rule table with
    [convert_symbol_to_raw_actions] and concatenating the tuples in order
    gives back the input sequence. *)
Theorem round_trip_expansion (self : k_Sequitur) (zs : list Z) :
  zs <> [] -> (1 <= k self)%Z ->
  exists n, forall fuel, n <= fuel ->
    exists new_actions rs action_usage self',
      generate_action_grammar fuel self (ints zs)
      = (Returns (new_actions, rs, action_usage), self')
      /\ exists raws,
           Forall2 (fun s r => convert_symbol_to_raw_actions fuel s rs = Some r)
                   new_actions raws
           /\ concat raws = ints zs.
Proof.
  intros Hne _.
  destruct (generate_action_grammar_ints self Hne) as [n [st [_ Hrun]]].
  exists n. intros fuel Hfuel.
  destruct (Hrun fuel Hfuel) as [_ [action_usage [Hg Hraws]]].
  exists (current_actions st), (all_rules st), action_usage, (self_ st).
  split; assumption.
Qed.

(** The example of the specification, [[0,1,2,0,1,2,2,2,2]] with [k = 2]. *)
Lemma round_trip_expansion_witness :
  [0; 1; 2; 0; 1; 2; 2; 2; 2]%Z <> []
  /\ (1 <= k (init 2 default_end_of_episode_symbol))%Z
  /\ exists n, forall fuel, n <= fuel ->
       exists new_actions rs action_usage self',
         generate_action_grammar fuel (init 2 default_end_of_episode_symbol)
                                 (ints [0; 1; 2; 0; 1; 2; 2; 2; 2]%Z)
         = (Returns (new_actions, rs, action_usage), self')
         /\ exists raws,
              Forall2 (fun s r =>
                         convert_symbol_to_raw_actions fuel s rs = Some r)
                      new_actions raws
              /\ concat raws = ints [0; 1; 2; 0; 1; 2; 2; 2; 2]%Z.
Proof.
  assert (Hne : [0; 1; 2; 0; 1; 2; 2; 2; 2]%Z <> []) by discriminate.
  assert (Hk : (1 <= k (init 2 default_end_of_episode_symbol))%Z)
    by (simpl; lia).
  split; [exact Hne|split; [exact Hk|]].
  exact (@round_trip_expansion (init 2 default_end_of_episode_symbol)
           [0; 1; 2; 0; 1; 2; 2; 2; 2]%Z Hne Hk).
Defined.

(** C7 (threshold respect).  In every layer, a pair of adjacent symbols
    that occurs fewer than [k] times in the layer's input sequence, by the
    plain count of positions, is assigned no rule identifier: it is the
    right-hand side of no minted rule and has no entry in the reverse
    lookup. *)
Theorem threshold_respect (self : k_Sequitur) (string : list symbol)
  (p : sympair) :
  (Z.of_nat (pair_occurrences p string) < k self)%Z ->
  (forall name,
      ~ In (name, p) (fst (fst (generate_1_layer_of_rules self string))))
  /\ dict_get p (snd (fst (generate_1_layer_of_rules self string))) = None.
Proof.
  intros Hlt.
  assert (Hno : forall name,
    ~ In (name, p) (fst (fst (generate_1_layer_of_rules self string)))).
  { intros name Hi. apply layer_threshold in Hi. lia. }
  split; [exact Hno|].
  destruct (dict_get p (snd (fst (generate_1_layer_of_rules self string))))
    as [name|] eqn:Hg; [|reflexivity].
  apply layer_reverse_rules, dict_get_In in Hg. now apply Hno in Hg.
Qed.

(** In [[0,1,0,1,2]] the pair [(1, 0)] occurs once, below [k = 2]. *)
Lemma threshold_respect_witness :
  (Z.of_nat (pair_occurrences (SInt 1, SInt 0) (ints [0; 1; 0; 1; 2]%Z))
   < k (init 2 default_end_of_episode_symbol))%Z
  /\ (forall name,
        ~ In (name, (SInt 1, SInt 0))
             (fst (fst (generate_1_layer_of_rules
                          (init 2 default_end_of_episode_symbol)
                          (ints [0; 1; 0; 1; 2]%Z)))))
  /\ dict_get (SInt 1, SInt 0)
       (snd (fst (generate_1_layer_of_rules
                    (init 2 default_end_of_episode_symbol)
                    (ints [0; 1; 0; 1; 2]%Z)))) = None.
Proof.
  assert (Hlt : (Z.of_nat (pair_occurrences (SInt 1, SInt 0)
                             (ints [0; 1; 0; 1; 2]%Z))
                 < k (init 2 default_end_of_episode_symbol))%Z)
    by (vm_compute; reflexivity).
  split; [exact Hlt|].
  exact (@threshold_respect (init 2 default_end_of_episode_symbol)
           (ints [0; 1; 0; 1; 2]%Z) (SInt 1, SInt 0) Hlt).
Defined.

(** C8 (length monotonicity).  For every non-empty input and every
    [k >= 1] the call returns a final sequence that is no longer than the
    input and strictly shorter as soon as the returned rule table holds a
    rule; and the rewriter's output is never longer than its input, for
    every sequence and reverse lookup. *)
Theorem length_monotonicity (self : k_Sequitur) (zs : list Z) :
  zs <> [] -> (1 <= k self)%Z ->
  (exists n, forall fuel, n <= fuel ->
     exists new_actions rs action_usage self',
       generate_action_grammar fuel self (ints zs)
       = (Returns (new_actions, rs, action_usage), self')
       /\ length new_actions <= length zs
       /\ (rs <> [] -> length new_actions < length zs))
  /\ (forall string reverse_rules,
        length (fst (convert_a_string_using_reverse_rules string reverse_rules))
        <= length string).
Proof.
  intros Hne _. split.
  - destruct (generate_action_grammar_ints self Hne) as [n [st [Hinv Hrun]]].
    exists n. intros fuel Hfuel.
    destruct (Hrun fuel Hfuel) as [_ [action_usage [Hg _]]].
    exists (current_actions st), (all_rules st), action_usage, (self_ st).
    pose proof (di_length Hinv) as Hl. pose proof (di_strict Hinv) as Hs.
    unfold ints in Hl, Hs. rewrite length_map in Hl, Hs. auto.
  - intros string reverse_rules. rewrite convert_a_string_rewrite_rec.
    apply rewrite_rec_length.
Qed.

(** [[4,4,7,4,4]] with [k = 1]. *)
Lemma length_monotonicity_witness :
  [4; 4; 7; 4; 4]%Z <> []
  /\ (1 <= k (init 1 default_end_of_episode_symbol))%Z
  /\ (exists n, forall fuel, n <= fuel ->
        exists new_actions rs action_usage self',
          generate_action_grammar fuel (init 1 default_end_of_episode_symbol)
                                  (ints [4; 4; 7; 4; 4]%Z)
          = (Returns (new_actions, rs, action_usage), self')
          /\ length new_actions <= length [4; 4; 7; 4; 4]%Z
          /\ (rs <> [] -> length new_actions < length [4; 4; 7; 4; 4]%Z))
  /\ (forall string reverse_rules,
        length (fst (convert_a_string_using_reverse_rules string reverse_rules))
        <= length string).
Proof.
  assert (Hne : [4; 4; 7; 4; 4]%Z <> []) by discriminate.
  assert (Hk : (1 <= k (init 1 default_end_of_episode_symbol))%Z)
    by (simpl; lia).
  split; [exact Hne|split; [exact Hk|]].
  exact (@length_monotonicity (init 1 default_end_of_episode_symbol)
           [4; 4; 7; 4; 4]%Z Hne Hk).
Defined.

(** C9 (termination of the fixpoint driver).  For every non-empty input and
    every [k >= 1] the loop ends, within as many passes as the input has
    symbols.  In each pass the output is no longer than the input and
    strictly shorter when the layer minted a rule; the output is the input
    exactly when the layer minted no rule; and the loop exits after a pass
    exactly when its output is its input. *)
Theorem fixpoint_driver_terminates (self : k_Sequitur) (zs : list Z) :
  zs <> [] -> (1 <= k self)%Z ->
  (exists st, forall fuel, length zs <= fuel ->
     driver_loop fuel (driver_init self (ints zs)) = Some st)
  /\ (forall st,
        let minted := fst (fst (generate_1_layer_of_rules
                                  (self_ st) (current_actions st))) in
        length (current_actions (driver_body st))
        <= length (current_actions st)
        /\ (minted <> [] ->
            length (current_actions (driver_body st))
            < length (current_actions st))
        /\ (current_actions (driver_body st) = current_actions st
            <-> minted = []))
  /\ (forall fuel st,
        (current_actions (driver_body st) = current_actions st ->
         driver_loop (S fuel) st = Some (driver_body st))
        /\ (current_actions (driver_body st) <> current_actions st ->
            driver_loop (S fuel) st = driver_loop fuel (driver_body st))).
Proof.
  intros Hne _. repeat split.
  - destruct (@driver_loop_terminates (length zs) (driver_init self (ints zs)))
      as [st Hloop].
    + destruct zs; [congruence|discriminate].
    + cbn [driver_init current_actions]. unfold ints. now rewrite length_map.
    + exists st. intros fuel Hfuel. eapply driver_loop_more_fuel; eauto.
  - rewrite driver_body_unfold. cbn [current_actions].
    apply rewrite_rec_length.
  - rewrite driver_body_unfold. cbn [current_actions].
    apply layer_rewrite_shrinks.
  - rewrite driver_body_unfold. cbn [current_actions].
    apply layer_rewrite_same_iff.
  - rewrite driver_body_unfold. cbn [current_actions].
    apply layer_rewrite_same_iff.
  - intros He. rewrite driver_loop_S.
    destruct (py_eqb_spec (current_actions (driver_body st))
                          (current_actions st)); [reflexivity|congruence].
  - intros Hneq. rewrite driver_loop_S.
    destruct (py_eqb_spec (current_actions (driver_body st))
                          (current_actions st)); [congruence|reflexivity].
Qed.

(** The example of the specification: the loop ends within 9 passes. *)
Lemma fixpoint_driver_terminates_witness :
  [0; 1; 2; 0; 1; 2; 2; 2; 2]%Z <> []
  /\ (1 <= k (init 2 default_end_of_episode_symbol))%Z
  /\ exists st, forall fuel, length [0; 1; 2; 0; 1; 2; 2; 2; 2]%Z <= fuel ->
       driver_loop fuel (driver_init (init 2 default_end_of_episode_symbol)
                                     (ints [0; 1; 2; 0; 1; 2; 2; 2; 2]%Z))
       = Some st.
Proof.
  assert (Hne : [0; 1; 2; 0; 1; 2; 2; 2; 2]%Z <> []) by discriminate.
  assert (Hk : (1 <= k (init 2 default_end_of_episode_symbol))%Z)
    by (simpl; lia).
  split; [exact Hne|split; [exact Hk|]].
  exact (proj1 (@fixpoint_driver_terminates
                  (init 2 default_end_of_episode_symbol)
                  [0; 1; 2; 0; 1; 2; 2; 2; 2]%Z Hne Hk)).
Defined.

(** C10 (usage map, last identifier wins).  In the usage map returned by
    [generate_action_grammar], when two distinct rule identifiers that each
    fired expand to the same raw tuple, the entry of that tuple is the
    count of the one processed last in the order of [rule_usage], not the
    sum of the two counts. *)
Theorem usage_map_last_wins (fuel : nat) (self : k_Sequitur)
  (actions : list symbol) (st : driver_state)
  (action_usage : dict (list symbol) Z)
  (pre mid post : dict symbol Z) (id1 id2 : symbol) (n1 n2 : Z)
  (raw : list symbol) :
  driver_loop fuel (driver_init self actions) = Some st ->
  generate_action_grammar fuel self actions
  = (Returns (current_actions st, all_rules st, action_usage), self_ st) ->
  rule_usage st = pre ++ (id1, n1) :: mid ++ (id2, n2) :: post ->
  id1 <> id2 -> (0 < n1)%Z -> (0 < n2)%Z ->
  convert_symbol_to_raw_actions fuel id1 (all_rules st) = Some raw ->
  convert_symbol_to_raw_actions fuel id2 (all_rules st) = Some raw ->
  (forall key n, In (key, n) post ->
     convert_symbol_to_raw_actions fuel key (all_rules st) <> Some raw) ->
  dict_get raw action_usage = Some n2
  /\ dict_get raw action_usage <> Some (n1 + n2)%Z.
Proof.
  intros Hloop Hrun Husage _ Hn1 _ _ Hid2 Hpost.
  assert (Hbuild : build_action_usage fuel (all_rules st) (rule_usage st) []
                   = Some action_usage).
  { unfold generate_action_grammar in Hrun.
    destruct actions as [|[z|s] actions']; try discriminate.
    fold (driver_init self (SInt z :: actions')) in Hrun.
    rewrite Hloop in Hrun.
    destruct (build_action_usage fuel (all_rules st) (rule_usage st) []);
      [|discriminate].
    now injection Hrun as ->. }
  assert (Hget : dict_get raw action_usage = Some n2).
  { rewrite Husage in Hbuild.
    replace (pre ++ (id1, n1) :: mid ++ (id2, n2) :: post)
      with ((pre ++ (id1, n1) :: mid) ++ (id2, n2) :: post) in Hbuild
      by (now rewrite <- app_assoc).
    apply build_action_usage_app in Hbuild.
    destruct Hbuild as [acc [_ Hrest]]. simpl in Hrest.
    rewrite Hid2 in Hrest.
    rewrite (@build_action_usage_other _ _ raw _ _ _ Hrest Hpost).
    now rewrite dict_get_set, py_eqb_refl. }
  split; [exact Hget|]. rewrite Hget. intros [= He]. lia.
Qed.

Lemma usage_map_last_wins_witness :
  let action_usage := [([SInt 0; SInt 1; SInt 2], 2%Z);
                       ([SInt 1; SInt 2], 3%Z)] in
  dict_get [SInt 0; SInt 1; SInt 2] action_usage = Some 2%Z
  /\ dict_get [SInt 0; SInt 1; SInt 2] action_usage <> Some (3 + 2)%Z.
Proof.
  intros action_usage.
  apply (@usage_map_last_wins 20 (init 2 default_end_of_episode_symbol)
           remint_actions remint_final action_usage
           [] [(SStr "R1", 3%Z)] [] (SStr "R0") (SStr "R2") 3%Z 2%Z
           [SInt 0; SInt 1; SInt 2]).
  - vm_compute. reflexivity.
  - vm_compute. reflexivity.
  - reflexivity.
  - discriminate.
  - lia.
  - lia.
  - vm_compute. reflexivity.
  - vm_compute. reflexivity.
  - intros key n [].
Defined.

(** C2 (end-of-episode marker).  The scan skips a position only when the
    marker is the second element of the pair.  Here the episodes [0],
    [1 2] and [1 2] are separated by ["/"] and [k = 2]: the pair
    [("/", 1)] is counted twice and minted as ["R0"], the rewriter replaces
    both markers, and the returned rule table holds the marker on a
    right-hand side. *)
Theorem end_of_episode_marker_paired :
  let self := init 2 default_end_of_episode_symbol in
  let actions := [SInt 0; SStr "/"; SInt 1; SInt 2; SStr "/"; SInt 1; SInt 2] in
  let layer := generate_1_layer_of_rules self actions in
  fst (fst layer) = [(SStr "R0", (SStr "/", SInt 1))]
  /\ fst (convert_a_string_using_reverse_rules actions (snd (fst layer)))
     = [SInt 0; SStr "R0"; SInt 2; SStr "R0"; SInt 2]
  /\ fst (generate_action_grammar 10 self actions)
     = Returns ([SInt 0; SStr "R1"; SStr "R1"],
                [(SStr "R0", (SStr "/", SInt 1));
                 (SStr "R1", (SStr "R0", SInt 2))],
                [([SStr "/"; SInt 1], 2%Z);
                 ([SStr "/"; SInt 1; SInt 2], 2%Z)]).
Proof. vm_compute. repeat split. Qed.

(** C3 (decrement at the first index).  With [k = 1] the pair at index 0
    reaches the threshold at once, and the scan decrements the count of
    [(string[-1], string[0])], the last symbol paired with the first: here
    [(2, 0)] goes to -1, so that its real occurrence at index 2 brings it
    to 0 only and no rule is minted for it. *)
Theorem decrement_at_first_index_wraps :
  let self := init 1 default_end_of_episode_symbol in
  let string := ints [0; 1; 2; 0; 5; 2]%Z in
  pairs_of_symbols (layer_body string (layer_init self) 0)
  = [((SInt 0, SInt 1), 1%Z); ((SInt 2, SInt 0), (-1)%Z)]
  /\ dd_value (SInt 2, SInt 0)
       (pairs_of_symbols (fold_left (layer_body string) (seq 0 3)
                                    (layer_init self))) = 0%Z
  /\ fst (fst (generate_1_layer_of_rules self string))
     = [(SStr "R0", (SInt 0, SInt 1)); (SStr "R1", (SInt 0, SInt 5))].
Proof. vm_compute. repeat split. Qed.

(** C6 (the example of the module comment).  On ["abddddeabde"] mapped to
    [a = 0], [b = 1], [d = 2], [e = 3], with [k = 2], the call returns 7
    symbols and two rules; the rules are [(d, d)] and [(a, b)], and no rule
    expands to [(d, e)]. *)
Theorem module_comment_example :
  generate_action_grammar 10 (init 2 default_end_of_episode_symbol)
    (ints [0; 1; 2; 2; 2; 2; 3; 0; 1; 2; 3]%Z)
  = (Returns ([SStr "R1"; SStr "R0"; SStr "R0"; SInt 3; SStr "R1"; SInt 2;
               SInt 3],
              [(SStr "R0", (SInt 2, SInt 2)); (SStr "R1", (SInt 0, SInt 1))],
              [([SInt 0; SInt 1], 2%Z); ([SInt 2; SInt 2], 2%Z)]),
     {| k := 2; end_of_episode_symbol := SStr "/"; next_rule_name_ix := 2 |}).
Proof. vm_compute. reflexivity. Qed.

(** C4, as stated, fails: with [k = 0] the call on [[0; 0; 0]] raises
    nothing; it returns a grammar and leaves the rule counter at 2. *)
Lemma threshold_not_validated_counterexample :
  (k (init 0 default_end_of_episode_symbol) < 1)%Z
  /\ generate_action_grammar 5 (init 0 default_end_of_episode_symbol)
       (ints [0; 0; 0]%Z)
     = (Returns ([SStr "R1"],
                 [(SStr "R0", (SInt 0, SInt 0));
                  (SStr "R1", (SStr "R0", SInt 0))],
                 [([SInt 0; SInt 0], 1%Z); ([SInt 0; SInt 0; SInt 0], 1%Z)]),
        {| k := 0; end_of_episode_symbol := SStr "/";
           next_rule_name_ix := 2 |}).
Proof. split; vm_compute; reflexivity. Qed.

(** C4, amended.  The entry point does not check [k]: when [k < 1] the
    call on a non-empty list of integers returns a grammar, as it does for
    any other [k].  The only failure it reports is the assertion failure
    for an empty list or a list whose first element is not an integer, and
    the engine is then as it was before the call. *)
Theorem threshold_unchecked (self : k_Sequitur) :
  (k self < 1)%Z ->
  (forall zs, zs <> [] ->
     exists n, forall fuel, n <= fuel ->
       exists g self',
         generate_action_grammar fuel self (ints zs) = (Returns g, self'))
  /\ (forall fuel actions e self',
        generate_action_grammar fuel self actions = (Raises e, self') ->
        self' = self
        /\ (actions = [] \/ exists s rest, actions = SStr s :: rest)).
Proof.
  intros _. split.
  - intros zs Hne.
    destruct (generate_action_grammar_ints self Hne) as [n [st [_ Hrun]]].
    exists n. intros fuel Hfuel.
    destruct (Hrun fuel Hfuel) as [_ [action_usage [Hg _]]]. eauto.
  - intros fuel actions e self'. unfold generate_action_grammar.
    destruct actions as [|[z|s] rest].
    + intros [= _ <-]. auto.
    + destruct (driver_loop fuel _) as [st|]; [|discriminate].
      destruct (build_action_usage fuel _ _ _); discriminate.
    + intros [= _ <-]. eauto.
Qed.

(** [k = 0] on [[0,0,0]]. *)
Lemma threshold_unchecked_witness :
  (k (init 0 default_end_of_episode_symbol) < 1)%Z
  /\ exists n, forall fuel, n <= fuel ->
       exists g self',
         generate_action_grammar fuel (init 0 default_end_of_episode_symbol)
                                 (ints [0; 0; 0]%Z)
         = (Returns g, self').
Proof.
  assert (Hk : (k (init 0 default_end_of_episode_symbol) < 1)%Z)
    by (simpl; lia).
  split; [exact Hk|].
  apply (proj1 (@threshold_unchecked
                  (init 0 default_end_of_episode_symbol) Hk)
               [0; 0; 0]%Z).
  discriminate.
Defined.

(** C5, as stated, fails: ["R9"] is neither an integer nor a key of the
    table, and the expander returns the one-element tuple [("R9",)]. *)
Lemma unknown_symbol_counterexample :
  dict_get (SStr "R9") [(SStr "R0", (SInt 0, SInt 1))] = None
  /\ convert_symbol_to_raw_actions 1 (SStr "R9")
       [(SStr "R0", (SInt 0, SInt 1))]
     = Some [SStr "R9"].
Proof. split; vm_compute; reflexivity. Qed.

(** C5, amended.  For every symbol that is not a key of the rule table, in
    the raw alphabet or not, the expander returns the one-element tuple
    that holds the symbol itself; it reports no error. *)
Theorem unknown_symbol_returned (fuel : nat) (symbol_ : symbol)
  (rs : dict symbol sympair) :
  dict_get symbol_ rs = None ->
  convert_symbol_to_raw_actions (S fuel) symbol_ rs = Some [symbol_].
Proof.
  intros Hg. unfold convert_symbol_to_raw_actions. rewrite expand_loop_S.
  assert (Hp : expand_pass rs [symbol_] = [symbol_])
    by (unfold expand_pass; cbn [flat_map]; now rewrite Hg).
  now rewrite Hp, py_eqb_refl.
Qed.

(** The end-of-episode marker is no key of the table. *)
Lemma unknown_symbol_returned_witness :
  dict_get (SStr "/") [(SStr "R0", (SInt 0, SInt 1))] = None
  /\ convert_symbol_to_raw_actions 1 (SStr "/")
       [(SStr "R0", (SInt 0, SInt 1))]
     = Some [SStr "/"].
Proof.
  assert (Hg : dict_get (SStr "/") [(SStr "R0", (SInt 0, SInt 1))] = None)
    by reflexivity.
  split; [exact Hg|].
  exact (@unknown_symbol_returned 0 (SStr "/")
           [(SStr "R0", (SInt 0, SInt 1))] Hg).
Defined.

(** * Further properties of the four routines *)

(** ** Layer builder: names, distinct pairs, the marker *)

(** What one iteration of the scan does to the rules: nothing, or it mints
    the pair at the current position under the next name. *)
Lemma layer_body_rules string st i :
  (rules (layer_body string st i) = rules st
   /\ engine (layer_body string st i) = engine st
   /\ (skip_next_symbol st = true ->
       skip_next_symbol (layer_body string st i) = false))
  \/ (skip_next_symbol st = false
      /\ skip_next_symbol (layer_body string st i) = true
      /\ py_eqb (nth (S i) string (SInt 0))
                (end_of_episode_symbol (engine st)) = false
      /\ existsb (py_eqb (pair_at string i)) (dict_values (rules st)) = false
      /\ rules (layer_body string st i)
         = dict_set (rule_name (next_rule_name_ix (engine st)))
                    (pair_at string i) (rules st)
      /\ engine (layer_body string st i)
         = snd (get_next_rule_name (engine st))).
Proof.
  rewrite layer_body_unfold.
  destruct (skip_next_symbol st) eqn:Hskip; [left; auto|].
  destruct (py_eqb (nth (S i) string (SInt 0))
                   (end_of_episode_symbol (engine st))) eqn:Heos.
  { left. repeat split; auto; congruence. }
  cbv zeta.
  destruct (Z.leb _ _).
  2:{ left. repeat split; auto; discriminate. }
  destruct (existsb (py_eqb (pair_at string i)) (dict_values (rules st)))
    eqn:Hex; cbn [negb].
  - left. repeat split; auto; discriminate.
  - right. repeat split; auto.
Qed.

Lemma layer_rules_inv_step self string i st :
  layer_inv self string i st -> layer_rules_inv self i st ->
  layer_rules_inv self (S i) (layer_body string st i).
Proof.
  intros Hinv [Hnd Hm Hc].
  destruct (layer_body_rules string st i)
    as [[Hr [He Hs]]|[Hskip [Hskip' [Heos [Hex [Hr He]]]]]].
  - constructor; rewrite ?Hr; auto.
    destruct (skip_next_symbol st).
    + rewrite Hs by reflexivity. lia.
    + destruct (skip_next_symbol (layer_body string st i)); lia.
  - assert (Hfresh : ~ In (rule_name (next_rule_name_ix (engine st)))
                          (dict_keys (rules st))).
    { rewrite (li_keys Hinv). pose proof (li_ix Hinv).
      replace (next_rule_name_ix (engine st))
        with (next_rule_name_ix self
              + (next_rule_name_ix (engine st) - next_rule_name_ix self)) at 1
        by lia.
      apply rule_name_fresh. }
    rewrite dict_set_fresh in Hr by assumption.
    constructor; rewrite Hr.
    + unfold dict_values in *. rewrite map_app. cbn [map snd].
      apply NoDup_app; [exact Hnd|repeat constructor; simpl; tauto|].
      intros p Hp [<-|[]].
      assert (Ht : existsb (py_eqb (pair_at string i)) (map snd (rules st))
                   = true).
      { apply existsb_exists. exists (pair_at string i).
        split; [exact Hp|apply py_eqb_refl]. }
      congruence.
    + intros name p Hi. apply in_app_or in Hi.
      destruct Hi as [Hi|[[= <- <-]|[]]]; [eauto|].
      cbn [pair_at snd]. rewrite <- (li_eos Hinv). intros Heq.
      rewrite Heq, py_eqb_refl in Heos. discriminate.
    + rewrite length_app, Hskip', Hskip in *. simpl. lia.
Qed.

Lemma layer_scan_both self string :
  layer_inv self string (length string - 1) (layer_scan self string)
  /\ layer_rules_inv self (length string - 1) (layer_scan self string).
Proof.
  unfold layer_scan.
  apply (fold_seq_invariant (layer_body string)
           (fun i st => layer_inv self string i st
                        /\ layer_rules_inv self i st)).
  - split; [apply layer_inv_init|].
    constructor; simpl; [constructor|tauto|lia].
  - intros i st _ [H1 H2]. split.
    + now apply layer_inv_step.
    + now apply layer_rules_inv_step.
Qed.

(** X1.  The rules of one layer are named after the counter: their names
    are ["R<c>"], ["R<c+1>"], ... in the order of minting, where [c] is the
    counter on entry; the counter on exit is [c] plus the number of rules,
    and [k] and the marker are unchanged. *)
Theorem layer_names_consecutive (self : k_Sequitur) (string : list symbol) :
  let rs := fst (fst (generate_1_layer_of_rules self string)) in
  let self' := snd (generate_1_layer_of_rules self string) in
  dict_keys rs = map rule_name (seq (next_rule_name_ix self) (length rs))
  /\ next_rule_name_ix self' = next_rule_name_ix self + length rs
  /\ k self' = k self
  /\ end_of_episode_symbol self' = end_of_episode_symbol self.
Proof.
  cbv zeta. unfold generate_1_layer_of_rules. cbn [fst snd].
  destruct (layer_scan_inv self string) as [Hk He Hix Hkeys _ _ _].
  assert (Hlen : length (rules (layer_scan self string))
                 = next_rule_name_ix (engine (layer_scan self string))
                   - next_rule_name_ix self).
  { rewrite <- (length_map fst). fold (dict_keys (rules (layer_scan self string))).
    now rewrite Hkeys, length_map, length_seq. }
  rewrite Hlen. repeat split; auto. lia.
Qed.

Lemma NoDup_values_In_unique (d : dict symbol sympair) name name' p :
  NoDup (dict_values d) -> In (name, p) d -> In (name', p) d -> name = name'.
Proof.
  induction d as [|kv d IH]; simpl; [tauto|].
  intros Hnd H1 H2. inversion Hnd as [|? ? Hni Hnd']; subst.
  destruct H1 as [E1|H1], H2 as [E2|H2].
  - congruence.
  - exfalso. apply Hni. subst kv. now apply (in_map snd) in H2.
  - exfalso. apply Hni. subst kv. now apply (in_map snd) in H1.
  - auto.
Qed.

(** X2.  Within one layer a pair is assigned at most one identifier, and
    the reverse lookup is the inverse of the layer's rules. *)
Theorem layer_reverse_rules_inverse (self : k_Sequitur)
  (string : list symbol) (name : symbol) (p : sympair) :
  let rs := fst (fst (generate_1_layer_of_rules self string)) in
  let reverse_rules := snd (fst (generate_1_layer_of_rules self string)) in
  NoDup (dict_values rs)
  /\ (dict_get p reverse_rules = Some name <-> dict_get name rs = Some p).
Proof.
  cbv zeta.
  pose proof (@layer_reverse_rules self string p name) as Hto.
  pose proof (layer_rules_NoDup self string) as Hkeys.
  unfold generate_1_layer_of_rules in *. cbn [fst snd] in *.
  destruct (layer_scan_both self string) as [_ [Hnd _ _]].
  split; [exact Hnd|]. split; [exact Hto|].
  intros Hg. apply dict_get_In in Hg.
  destruct (dict_get p (invert_rules (rules (layer_scan self string))))
    as [name'|] eqn:Hrev.
  - f_equal. unfold invert_rules in Hrev.
    apply invert_rules_get_In in Hrev.
    destruct Hrev as [Hi|Hn]; [|discriminate].
    symmetry. eapply NoDup_values_In_unique; eauto.
  - exfalso. unfold invert_rules in Hrev.
    now apply (@invert_rules_In_get _ [] p name) in Hg.
Qed.

(** X3.  Every minted pair occurs in the layer's input at two adjacent
    positions, and its second element is not the end-of-episode marker. *)
Theorem layer_marker_never_second (self : k_Sequitur) (string : list symbol)
  (name a b : symbol) :
  In (name, (a, b)) (fst (fst (generate_1_layer_of_rules self string))) ->
  b <> end_of_episode_symbol self
  /\ exists i, S i < length string
               /\ nth i string (SInt 0) = a /\ nth (S i) string (SInt 0) = b.
Proof.
  intros Hi. split.
  - unfold generate_1_layer_of_rules in Hi. cbn [fst snd] in Hi.
    destruct (layer_scan_both self string) as [_ [_ Hm _]].
    exact (Hm _ _ Hi).
  - destruct (layer_rules_occur _ _ _ _ Hi) as [i [Hlt [Hp _]]].
    exists i. unfold pair_at in Hp. injection Hp as -> ->. auto.
Qed.

Lemma layer_marker_never_second_witness :
  In (SStr "R0", (SInt 0, SInt 1))
     (fst (fst (generate_1_layer_of_rules
                  (init 2 default_end_of_episode_symbol)
                  (ints [0; 1; 0; 1]%Z))))
  /\ SInt 1 <> end_of_episode_symbol (init 2 default_end_of_episode_symbol)
  /\ exists i, S i < length (ints [0; 1; 0; 1]%Z)
               /\ nth i (ints [0; 1; 0; 1]%Z) (SInt 0) = SInt 0
               /\ nth (S i) (ints [0; 1; 0; 1]%Z) (SInt 0) = SInt 1.
Proof.
  assert (Hi : In (SStr "R0", (SInt 0, SInt 1))
                  (fst (fst (generate_1_layer_of_rules
                               (init 2 default_end_of_episode_symbol)
                               (ints [0; 1; 0; 1]%Z)))))
    by (vm_compute; left; reflexivity).
  split; [exact Hi|].
  exact (@layer_marker_never_second (init 2 default_end_of_episode_symbol)
           (ints [0; 1; 0; 1]%Z) (SStr "R0") (SInt 0) (SInt 1) Hi).
Defined.

(** X4.  A layer mints at most one rule for every two symbols of its
    input: two rules are never minted at neighbouring positions. *)
Theorem layer_rule_count_bound (self : k_Sequitur) (string : list symbol) :
  2 * length (fst (fst (generate_1_layer_of_rules self string)))
  <= length string.
Proof.
  unfold generate_1_layer_of_rules. cbn [fst snd].
  destruct (layer_scan_both self string) as [_ [_ _ Hc]].
  destruct string as [|x string].
  - simpl in *. lia.
  - replace (length (x :: string) - 1) with (length string) in Hc
      by (simpl; lia).
    cbn [length]. destruct (skip_next_symbol _); lia.
Qed.

(** ** Rewriter: greedy substitution and conservation *)

Lemma dict_set_set {K V} `{PyEqLaws K} (key : K) (v w : V) (d : dict K V) :
  dict_set key v (dict_set key w d) = dict_set key v d.
Proof.
  induction d as [|[k1 v1] d IH]; simpl.
  - now rewrite py_eqb_refl.
  - destruct (py_eqb key k1) eqn:He; simpl; rewrite He; [reflexivity|].
    now rewrite IH.
Qed.

Lemma dd_add_dict_set {K} `{PyEqLaws K} (key : K) delta (d : dict K Z) :
  dd_add key delta d = dict_set key (dd_value key d + delta)%Z d.
Proof.
  unfold dd_add, dd_getitem, dd_value.
  destruct (dict_get key d); [reflexivity|apply dict_set_set].
Qed.

Lemma usage_total_dict_set {K} `{PyEqLaws K} (key : K) v (d : dict K Z) :
  usage_total (dict_set key v d)
  = (usage_total d - dd_value key d + v)%Z.
Proof.
  unfold dd_value.
  induction d as [|[k1 v1] d IH]; simpl; [lia|].
  destruct (py_eqb key k1); simpl; [lia|]. rewrite IH. lia.
Qed.

Lemma usage_total_dd_add {K} `{PyEqLaws K} (key : K) delta (d : dict K Z) :
  usage_total (dd_add key delta d) = (usage_total d + delta)%Z.
Proof. rewrite dd_add_dict_set, usage_total_dict_set. lia. Qed.

Lemma positive_dd_value {K} `{PyEqLaws K} (key : K) (d : dict K Z) :
  Forall (fun kv => (0 < snd kv)%Z) d -> (0 <= dd_value key d)%Z.
Proof.
  intros Hpos. unfold dd_value.
  destruct (dict_get key d) as [v|] eqn:Hg; [|lia].
  apply dict_get_In in Hg. rewrite Forall_forall in Hpos.
  specialize (Hpos _ Hg). simpl in Hpos. lia.
Qed.

Lemma positive_dict_set {K} `{PyEqLaws K} (key : K) v (d : dict K Z) :
  Forall (fun kv => (0 < snd kv)%Z) d -> (0 < v)%Z ->
  Forall (fun kv => (0 < snd kv)%Z) (dict_set key v d).
Proof.
  intros Hpos Hv. induction d as [|[k1 v1] d IH]; simpl.
  - repeat constructor. exact Hv.
  - inversion Hpos; subst. destruct (py_eqb key k1); constructor; auto.
Qed.

Lemma positive_dd_add {K} `{PyEqLaws K} (key : K) delta (d : dict K Z) :
  Forall (fun kv => (0 < snd kv)%Z) d -> (0 < delta)%Z ->
  Forall (fun kv => (0 < snd kv)%Z) (dd_add key delta d).
Proof.
  intros Hpos Hd. rewrite dd_add_dict_set.
  apply positive_dict_set; [exact Hpos|].
  pose proof (positive_dd_value key Hpos). lia.
Qed.

Lemma rewrite_inv_step string reverse_rules i st :
  i < length string -> rewrite_inv string i st ->
  rewrite_inv string (S i) (rewrite_body string reverse_rules st i).
Proof.
  intros Hi [Ht Hs Hp]. unfold rewrite_body.
  destruct (skip_next_element st) eqn:Hskip.
  - constructor; cbn [new_string skip_next_element rules_usage_count];
      [lia|discriminate|exact Hp].
  - destruct (Z.eqb_spec (Z.of_nat i) (Z.of_nat (length string) - 1)).
    + constructor; cbn [new_string skip_next_element rules_usage_count];
        [rewrite length_app; simpl; lia|discriminate|exact Hp].
    + destruct (dict_get _ reverse_rules) as [result|];
        constructor; cbn [new_string skip_next_element rules_usage_count];
        rewrite ?length_app, ?usage_total_dd_add; simpl;
        try lia; try discriminate; auto.
      apply positive_dd_add; [exact Hp|lia].
Qed.

Lemma rewrite_inv_final string reverse_rules :
  rewrite_inv string (length string)
    (fold_left (rewrite_body string reverse_rules) (seq 0 (length string))
               rewrite_init).
Proof.
  apply (fold_seq_invariant (rewrite_body string reverse_rules)
           (rewrite_inv string)).
  - constructor; simpl; [reflexivity|discriminate|constructor].
  - intros i st Hi. now apply rewrite_inv_step.
Qed.

(** X5.  The rewriter substitutes greedily from the left without overlap:
    the empty and the one-symbol sequence are returned as they are; on
    [x, y, ...] a pair [(x, y)] of the reverse lookup is replaced by its
    rule name and the scan goes on after [y], and otherwise [x] is kept
    and the scan goes on at [y]. *)
Theorem rewriter_greedy (reverse_rules : dict sympair symbol) :
  let rewrite := fun string =>
    fst (convert_a_string_using_reverse_rules string reverse_rules) in
  rewrite [] = []
  /\ (forall x, rewrite [x] = [x])
  /\ (forall x y t result,
        dict_get (x, y) reverse_rules = Some result ->
        rewrite (x :: y :: t) = result :: rewrite t)
  /\ (forall x y t,
        dict_get (x, y) reverse_rules = None ->
        rewrite (x :: y :: t) = x :: rewrite (y :: t)).
Proof.
  cbv zeta. repeat split; intros; rewrite ?convert_a_string_rewrite_rec;
    try reflexivity.
  - cbn [rewrite_rec]. now rewrite H.
  - change (rewrite_rec reverse_rules (x :: y :: t))
      with (match dict_get (x, y) reverse_rules with
            | Some result => result :: rewrite_rec reverse_rules t
            | None => x :: rewrite_rec reverse_rules (y :: t)
            end).
    now rewrite H.
Qed.

(** X6.  Every substitution consumes exactly two symbols and yields one:
    the length of the rewriter's output plus the sum of the usage counts
    it returns is the length of its input, and every count it returns is
    positive. *)
Theorem rewriter_conservation (string : list symbol)
  (reverse_rules : dict sympair symbol) :
  let out := convert_a_string_using_reverse_rules string reverse_rules in
  (Z.of_nat (length (fst out)) + usage_total (snd out)
   = Z.of_nat (length string))%Z
  /\ Forall (fun kv => (0 < snd kv)%Z) (snd out).
Proof.
  cbv zeta. unfold convert_a_string_using_reverse_rules. cbn [fst snd].
  destruct (rewrite_inv_final string reverse_rules) as [Ht Hs Hp].
  split; [|exact Hp].
  destruct (skip_next_element _); [|lia].
  specialize (Hs eq_refl). lia.
Qed.

(** ** One layer and one pass of the expander *)

Lemma expand_pass_rewrite_rec rs reverse_rules l :
  (forall x y r, dict_get (x, y) reverse_rules = Some r ->
                 dict_get r rs = Some (x, y)) ->
  (forall s, In s l -> dict_get s rs = None) ->
  expand_pass rs (rewrite_rec reverse_rules l) = l.
Proof.
  intros Hrr.
  induction l as [| x | x y t IH1 IH2] using list_ind2; intros Hraw.
  - reflexivity.
  - unfold expand_pass. simpl. rewrite Hraw by now left. reflexivity.
  - change (rewrite_rec reverse_rules (x :: y :: t))
      with (match dict_get (x, y) reverse_rules with
            | Some result => result :: rewrite_rec reverse_rules t
            | None => x :: rewrite_rec reverse_rules (y :: t)
            end).
    destruct (dict_get (x, y) reverse_rules) as [r|] eqn:Hg.
    + change (r :: rewrite_rec reverse_rules t)
        with ([r] ++ rewrite_rec reverse_rules t).
      rewrite expand_pass_app, IH1 by (intros s Hs; apply Hraw; simpl; auto).
      unfold expand_pass. simpl. now rewrite (Hrr _ _ _ Hg).
    + change (x :: rewrite_rec reverse_rules (y :: t))
        with ([x] ++ rewrite_rec reverse_rules (y :: t)).
      rewrite expand_pass_app, IH2 by (intros s Hs; apply Hraw; simpl; auto).
      unfold expand_pass. simpl. rewrite Hraw by now left. reflexivity.
Qed.

(** X7.  One pass of the expander undoes one layer: when no symbol of the
    sequence is one of the names minted by the layer, replacing every rule
    name of the rewritten sequence by its pair gives the sequence back. *)
Theorem layer_expand_pass_round_trip (self : k_Sequitur)
  (string : list symbol) :
  let rs := fst (fst (generate_1_layer_of_rules self string)) in
  let reverse_rules := snd (fst (generate_1_layer_of_rules self string)) in
  (forall s, In s string -> dict_get s rs = None) ->
  expand_pass rs (fst (convert_a_string_using_reverse_rules
                         string reverse_rules))
  = string.
Proof.
  cbv zeta. intros Hraw. rewrite convert_a_string_rewrite_rec.
  apply expand_pass_rewrite_rec; [|exact Hraw].
  intros x y r. apply layer_reverse_rules.
Qed.

Lemma layer_expand_pass_round_trip_witness :
  (forall s, In s (ints [0; 1; 2; 0; 1; 2; 2; 2; 2]%Z) ->
     dict_get s (fst (fst (generate_1_layer_of_rules
                             (init 2 default_end_of_episode_symbol)
                             (ints [0; 1; 2; 0; 1; 2; 2; 2; 2]%Z)))) = None)
  /\ expand_pass
       (fst (fst (generate_1_layer_of_rules
                    (init 2 default_end_of_episode_symbol)
                    (ints [0; 1; 2; 0; 1; 2; 2; 2; 2]%Z))))
       (fst (convert_a_string_using_reverse_rules
               (ints [0; 1; 2; 0; 1; 2; 2; 2; 2]%Z)
               (snd (fst (generate_1_layer_of_rules
                            (init 2 default_end_of_episode_symbol)
                            (ints [0; 1; 2; 0; 1; 2; 2; 2; 2]%Z))))))
     = ints [0; 1; 2; 0; 1; 2; 2; 2; 2]%Z.
Proof.
  assert (Hraw : forall s, In s (ints [0; 1; 2; 0; 1; 2; 2; 2; 2]%Z) ->
     dict_get s (fst (fst (generate_1_layer_of_rules
                             (init 2 default_end_of_episode_symbol)
                             (ints [0; 1; 2; 0; 1; 2; 2; 2; 2]%Z)))) = None).
  { intros s Hs. simpl in Hs.
    repeat (destruct Hs as [<-|Hs]; [vm_compute; reflexivity|]).
    destruct Hs. }
  split; [exact Hraw|].
  exact (@layer_expand_pass_round_trip (init 2 default_end_of_episode_symbol)
           (ints [0; 1; 2; 0; 1; 2; 2; 2; 2]%Z) Hraw).
Defined.

(** ** Expander: what it returns, and when it never returns *)

Lemma expand_pass_length rs l : length l <= length (expand_pass rs l).
Proof.
  induction l as [|x l IH]; [simpl; lia|].
  change (x :: l) with ([x] ++ l). rewrite expand_pass_app, !length_app.
  unfold expand_pass at 1. simpl.
  destruct (dict_get x rs); simpl; lia.
Qed.

Lemma expand_pass_fixed_no_rule rs l :
  expand_pass rs l = l -> forall s, In s l -> dict_get s rs = None.
Proof.
  induction l as [|x l IH]; [simpl; tauto|].
  change (x :: l) with ([x] ++ l). rewrite expand_pass_app.
  unfold expand_pass at 1. cbn [flat_map app].
  destruct (dict_get x rs) as [rhs|] eqn:Hg; cbn [app]; intros Heq.
  - exfalso. injection Heq as _ Heq.
    pose proof (expand_pass_length rs l) as Hl.
    apply (f_equal (@length symbol)) in Heq. simpl in Heq. lia.
  - injection Heq as Heq. intros s [<-|Hs]; auto.
Qed.

Lemma expand_loop_fixed rs : forall fuel l raw,
  expand_loop fuel rs l = Some raw -> expand_pass rs raw = raw.
Proof.
  induction fuel as [|fuel IH]; intros l raw; [discriminate|].
  rewrite expand_loop_S.
  destruct (py_eqb_spec (expand_pass rs l) l) as [He|Hne].
  - intros [= <-]. now rewrite He at 1.
  - apply IH.
Qed.

(** X8.  What the expander returns holds no rule identifier: no symbol of
    the result is a key of the rule table, and one more substitution pass
    leaves the result as it is. *)
Theorem expander_result_has_no_rule (fuel : nat) (symbol_ : symbol)
  (rs : dict symbol sympair) (raw : list symbol) :
  convert_symbol_to_raw_actions fuel symbol_ rs = Some raw ->
  (forall s, In s raw -> dict_get s rs = None)
  /\ expand_pass rs raw = raw.
Proof.
  unfold convert_symbol_to_raw_actions. intros Hc.
  apply expand_loop_fixed in Hc. split; [|exact Hc].
  now apply expand_pass_fixed_no_rule.
Qed.

Lemma expander_result_has_no_rule_witness :
  convert_symbol_to_raw_actions 3 (SStr "R1")
    [(SStr "R0", (SInt 0, SInt 1)); (SStr "R1", (SStr "R0", SInt 2))]
  = Some [SInt 0; SInt 1; SInt 2]
  /\ (forall s, In s [SInt 0; SInt 1; SInt 2] ->
        dict_get s [(SStr "R0", (SInt 0, SInt 1));
                    (SStr "R1", (SStr "R0", SInt 2))] = None)
  /\ expand_pass [(SStr "R0", (SInt 0, SInt 1));
                  (SStr "R1", (SStr "R0", SInt 2))]
                 [SInt 0; SInt 1; SInt 2]
     = [SInt 0; SInt 1; SInt 2].
Proof.
  assert (Hc : convert_symbol_to_raw_actions 3 (SStr "R1")
                 [(SStr "R0", (SInt 0, SInt 1));
                  (SStr "R1", (SStr "R0", SInt 2))]
               = Some [SInt 0; SInt 1; SInt 2])
    by (vm_compute; reflexivity).
  split; [exact Hc|].
  exact (@expander_result_has_no_rule 3 (SStr "R1")
           [(SStr "R0", (SInt 0, SInt 1)); (SStr "R1", (SStr "R0", SInt 2))]
           [SInt 0; SInt 1; SInt 2] Hc).
Defined.

Lemma expand_pass_keeps_self rs s a b l :
  dict_get s rs = Some (a, b) -> a = s \/ b = s ->
  In s l ->
  In s (expand_pass rs l) /\ length l < length (expand_pass rs l).
Proof.
  intros Hg Hab. induction l as [|x l IH]; [simpl; tauto|].
  change (x :: l) with ([x] ++ l). rewrite expand_pass_app, !length_app.
  pose proof (expand_pass_length rs l) as Hl.
  pose proof (expand_pass_length rs [x]) as Hx.
  intros [->|Hi].
  - unfold expand_pass at 1 3. cbn [flat_map]. rewrite Hg. cbn [fst snd app].
    split; [|simpl; lia].
    destruct Hab as [->| ->]; simpl; auto.
  - destruct (IH Hi) as [Hin Hlt]. split; [apply in_or_app; now right|].
    simpl in *. lia.
Qed.

Lemma expand_loop_self_reference rs s a b :
  dict_get s rs = Some (a, b) -> a = s \/ b = s ->
  forall fuel l, In s l -> expand_loop fuel rs l = None.
Proof.
  intros Hg Hab. induction fuel as [|fuel IH]; intros l Hi; [reflexivity|].
  rewrite expand_loop_S.
  destruct (@expand_pass_keeps_self rs s a b l Hg Hab Hi) as [Hin Hlt].
  destruct (py_eqb_spec (expand_pass rs l) l) as [He|Hne].
  - rewrite He in Hlt. lia.
  - now apply IH.
Qed.

(** X9.  When the right-hand side of a rule holds the rule's own name, the
    expansion of that name never finishes: with every amount of fuel the
    loop is still running. *)
Theorem expander_self_reference_diverges (rs : dict symbol sympair)
  (name a b : symbol) (fuel : nat) :
  dict_get name rs = Some (a, b) -> a = name \/ b = name ->
  convert_symbol_to_raw_actions fuel name rs = None.
Proof.
  intros Hg Hab. unfold convert_symbol_to_raw_actions.
  eapply expand_loop_self_reference; eauto. now left.
Qed.

(** The table that the run on [[0, "R0", 0, "R0"]] with [k = 2] builds. *)
Lemma expander_self_reference_diverges_witness :
  fst (fst (generate_1_layer_of_rules (init 2 default_end_of_episode_symbol)
              [SInt 0; SStr "R0"; SInt 0; SStr "R0"]))
  = [(SStr "R0", (SInt 0, SStr "R0"))]
  /\ convert_symbol_to_raw_actions 50 (SStr "R0")
       [(SStr "R0", (SInt 0, SStr "R0"))] = None.
Proof.
  split; [vm_compute; reflexivity|].
  apply (@expander_self_reference_diverges
           [(SStr "R0", (SInt 0, SStr "R0"))] (SStr "R0")
           (SInt 0) (SStr "R0") 50).
  - reflexivity.
  - right; reflexivity.
Defined.

(** ** Fixpoint driver: names, usage counts, the fixpoint *)

Lemma dict_update_fresh {K V} `{PyEqLaws K} (other : dict K V) : forall d,
  NoDup (dict_keys other) ->
  (forall key, In key (dict_keys other) -> ~ In key (dict_keys d)) ->
  dict_update d other = d ++ other.
Proof.
  unfold dict_update.
  induction other as [|[k1 v1] other IH]; intros d Hnd Hfresh; simpl.
  - now rewrite app_nil_r.
  - simpl in Hnd. inversion Hnd as [|? ? Hni Hnd']; subst.
    rewrite dict_set_fresh by (apply Hfresh; now left).
    rewrite IH; [now rewrite <- app_assoc|exact Hnd'|].
    intros key Hi. unfold dict_keys. rewrite map_app, in_app_iff.
    intros [Hd|[<-|[]]].
    + apply (Hfresh key); [now right|exact Hd].
    + exact (Hni Hi).
Qed.

Lemma add_usage_total (counts : dict symbol Z) : forall usage,
  usage_total (add_usage usage counts)
  = (usage_total usage + usage_total counts)%Z.
Proof.
  unfold add_usage.
  induction counts as [|[k1 v1] counts IH]; intros usage; simpl; [lia|].
  rewrite IH, usage_total_dd_add. lia.
Qed.

Lemma add_usage_positive (counts : dict symbol Z) : forall usage,
  Forall (fun kv => (0 < snd kv)%Z) usage ->
  Forall (fun kv => (0 < snd kv)%Z) counts ->
  Forall (fun kv => (0 < snd kv)%Z) (add_usage usage counts).
Proof.
  unfold add_usage.
  induction counts as [|[k1 v1] counts IH]; intros usage Hu Hc; simpl; auto.
  inversion Hc; subst. apply IH; [|assumption].
  now apply positive_dd_add.
Qed.

Lemma convert_totals string reverse_rules :
  (Z.of_nat (length (rewrite_rec reverse_rules string))
   + usage_total (snd (convert_a_string_using_reverse_rules
                         string reverse_rules))
   = Z.of_nat (length string))%Z
  /\ Forall (fun kv => (0 < snd kv)%Z)
            (snd (convert_a_string_using_reverse_rules string reverse_rules)).
Proof.
  rewrite <- convert_a_string_rewrite_rec.
  unfold convert_a_string_using_reverse_rules. cbn [fst snd].
  destruct (rewrite_inv_final string reverse_rules) as [Ht Hs Hp].
  split; [|exact Hp].
  destruct (skip_next_element _); [|lia].
  specialize (Hs eq_refl). lia.
Qed.

Lemma driver_names_inv_init self actions :
  driver_names_inv self actions (driver_init self actions).
Proof.
  constructor; simpl; auto; try lia; try tauto.
  now rewrite Nat.sub_diag.
Qed.

Lemma driver_names_inv_step self actions st :
  driver_names_inv self actions st ->
  driver_names_inv self actions (driver_body st).
Proof.
  intros [Hk He Hix Hkeys Htot Hpos Huk]. rewrite driver_body_unfold.
  cbv zeta. set (cur := current_actions st).
  destruct (layer_scan_inv (self_ st) cur) as [Lk Le Lix Lkeys _ _ _].
  pose proof (@layer_reverse_rules (self_ st) cur) as Hrr.
  pose proof (layer_rules_NoDup (self_ st) cur) as Hnd.
  pose proof (layer_rules_keys (self_ st) cur) as Hnew.
  destruct (convert_totals cur
              (snd (fst (generate_1_layer_of_rules (self_ st) cur))))
    as [Ctot Cpos].
  pose proof (@rewrite_usage_keys cur
                (snd (fst (generate_1_layer_of_rules (self_ st) cur))))
    as Cuk.
  unfold generate_1_layer_of_rules in *. cbn [fst snd] in *.
  set (scan := layer_scan (self_ st) cur) in *.
  assert (Happ : dict_update (all_rules st) (rules scan)
                 = all_rules st ++ rules scan).
  { apply dict_update_fresh; [exact Hnd|].
    intros key Hi Hold. destruct (Hnew _ Hi) as [j [-> Hj]].
    rewrite Hkeys, in_map_iff in Hold. destruct Hold as [j' [Hj' Hin]].
    apply rule_name_inj in Hj'. apply in_seq in Hin. lia. }
  constructor; cbn [all_rules rule_usage current_actions self_];
    rewrite ?Happ; try congruence; try lia.
  - unfold dict_keys in *. rewrite map_app, Hkeys, Lkeys.
    replace (next_rule_name_ix (engine scan) - next_rule_name_ix self)
      with ((next_rule_name_ix (self_ st) - next_rule_name_ix self)
            + (next_rule_name_ix (engine scan) - next_rule_name_ix (self_ st)))
      by lia.
    rewrite seq_app, map_app. do 3 f_equal. lia.
  - rewrite add_usage_total. fold cur in Htot. lia.
  - now apply add_usage_positive.
  - intros key Hi. unfold dict_keys. rewrite map_app, in_app_iff.
    apply add_usage_keys in Hi. destruct Hi as [Hi|Hi]; [left; auto|right].
    apply Cuk in Hi. destruct Hi as [x [y [Hg _]]].
    apply Hrr in Hg. now apply dict_get_Some_key in Hg.
Qed.

Lemma driver_loop_names_inv self actions : forall fuel st st',
  driver_names_inv self actions st -> driver_loop fuel st = Some st' ->
  driver_names_inv self actions st'.
Proof.
  induction fuel as [|fuel IH]; intros st st' Hinv; [discriminate|].
  rewrite driver_loop_S. destruct (negb _).
  - apply IH. now apply driver_names_inv_step.
  - intros [= <-]. now apply driver_names_inv_step.
Qed.

(** What a returning call went through. *)
Lemma generate_action_grammar_returns fuel self actions new_actions rs
  action_usage self' :
  generate_action_grammar fuel self actions
  = (Returns (new_actions, rs, action_usage), self') ->
  exists st,
    driver_loop fuel (driver_init self actions) = Some st
    /\ new_actions = current_actions st /\ rs = all_rules st
    /\ self' = self_ st
    /\ build_action_usage fuel rs (rule_usage st) [] = Some action_usage.
Proof.
  unfold generate_action_grammar.
  destruct actions as [|[z|s] actions']; try discriminate.
  fold (driver_init self (SInt z :: actions')).
  destruct (driver_loop fuel _) as [st|]; [|discriminate].
  destruct (build_action_usage fuel (all_rules st) (rule_usage st) [])
    as [au|] eqn:Hb; [|discriminate].
  intros [= <- <- <- <-]. exists st. auto.
Qed.

(** X10.  For every input, the rule table that a call returns is named
    after the counter: its keys are ["R<c>"], ..., ["R<c'-1>"] in this
    order, pairwise distinct, where [c] and [c'] are the counter before
    and after the call; the call never lowers the counter and changes
    neither [k] nor the marker. *)
Theorem rule_table_names (fuel : nat) (self : k_Sequitur)
  (actions new_actions : list symbol) (rs : dict symbol sympair)
  (action_usage : dict (list symbol) Z) (self' : k_Sequitur) :
  generate_action_grammar fuel self actions
  = (Returns (new_actions, rs, action_usage), self') ->
  dict_keys rs = map rule_name (seq (next_rule_name_ix self) (length rs))
  /\ NoDup (dict_keys rs)
  /\ next_rule_name_ix self' = next_rule_name_ix self + length rs
  /\ k self' = k self
  /\ end_of_episode_symbol self' = end_of_episode_symbol self.
Proof.
  intros Hrun. apply generate_action_grammar_returns in Hrun.
  destruct Hrun as [st [Hloop [-> [-> [-> _]]]]].
  destruct (@driver_loop_names_inv self actions fuel _ _
              (driver_names_inv_init self actions) Hloop)
    as [Hk He Hix Hkeys _ _ _].
  assert (Hlen : length (all_rules st)
                 = next_rule_name_ix (self_ st) - next_rule_name_ix self).
  { rewrite <- (length_map fst). fold (dict_keys (all_rules st)).
    now rewrite Hkeys, length_map, length_seq. }
  rewrite Hlen. repeat split; auto; try lia.
  rewrite Hkeys. apply Injective_map_NoDup; [|apply seq_NoDup].
  intros i j. apply rule_name_inj.
Qed.

Lemma rule_table_names_witness :
  generate_action_grammar 10 (init 2 default_end_of_episode_symbol)
    (ints [0; 1; 2; 0; 1; 2; 2; 2; 2]%Z)
  = (Returns ([SStr "R0"; SInt 2; SStr "R0"; SStr "R1"; SStr "R1"],
              [(SStr "R0", (SInt 0, SInt 1)); (SStr "R1", (SInt 2, SInt 2))],
              [([SInt 0; SInt 1], 2%Z); ([SInt 2; SInt 2], 2%Z)]),
     {| k := 2; end_of_episode_symbol := SStr "/"; next_rule_name_ix := 2 |})
  /\ dict_keys [(SStr "R0", (SInt 0, SInt 1)); (SStr "R1", (SInt 2, SInt 2))]
     = map rule_name (seq 0 2).
Proof.
  assert (Hrun : generate_action_grammar 10
                   (init 2 default_end_of_episode_symbol)
                   (ints [0; 1; 2; 0; 1; 2; 2; 2; 2]%Z)
    = (Returns ([SStr "R0"; SInt 2; SStr "R0"; SStr "R1"; SStr "R1"],
                [(SStr "R0", (SInt 0, SInt 1)); (SStr "R1", (SInt 2, SInt 2))],
                [([SInt 0; SInt 1], 2%Z); ([SInt 2; SInt 2], 2%Z)]),
       {| k := 2; end_of_episode_symbol := SStr "/";
          next_rule_name_ix := 2 |}))
    by (vm_compute; reflexivity).
  split; [exact Hrun|].
  exact (proj1 (@rule_table_names _ _ _ _ _ _ _ Hrun)).
Defined.

Lemma layer_no_mint_engine self string :
  fst (fst (generate_1_layer_of_rules self string)) = [] ->
  snd (generate_1_layer_of_rules self string) = self.
Proof.
  unfold generate_1_layer_of_rules. cbn [fst snd]. intros Hnil.
  destruct (layer_scan_inv self string) as [Hk He Hix Hkeys _ _ _].
  rewrite Hnil in Hkeys. simpl in Hkeys. symmetry in Hkeys.
  apply map_eq_nil in Hkeys.
  apply (f_equal (@length nat)) in Hkeys. rewrite length_seq in Hkeys.
  simpl in Hkeys.
  destruct (engine (layer_scan self string)) as [k1 e1 n1], self as [k0 e0 n0].
  simpl in *. f_equal; auto. lia.
Qed.

Lemma rewrite_no_rules_usage string :
  snd (convert_a_string_using_reverse_rules string []) = [].
Proof.
  unfold convert_a_string_using_reverse_rules. cbn [snd].
  apply (fold_seq_invariant (rewrite_body string [])
           (fun _ st => rules_usage_count st = [])).
  - reflexivity.
  - intros i st _ Hnil. unfold rewrite_body.
    destruct (skip_next_element st); [exact Hnil|].
    destruct (Z.eqb _ _); exact Hnil.
Qed.

(** A pass that leaves the sequence as it is leaves the whole state as it
    is: rule table, usage counts and counter. *)
Lemma driver_body_fixed st :
  current_actions (driver_body st) = current_actions st ->
  driver_body st = st.
Proof.
  rewrite driver_body_unfold. cbv zeta. cbn [current_actions]. intros Hsame.
  apply layer_rewrite_same_iff in Hsame.
  rewrite (layer_no_mint_engine _ _ Hsame).
  rewrite (layer_no_rules _ _ Hsame), Hsame.
  rewrite rewrite_no_rules_usage, rewrite_rec_no_rules.
  destruct st; reflexivity.
Qed.

Lemma driver_loop_fixed : forall fuel st0 st,
  driver_loop fuel st0 = Some st -> driver_body st = st.
Proof.
  induction fuel as [|fuel IH]; intros st0 st; [discriminate|].
  rewrite driver_loop_S.
  destruct (py_eqb_spec (current_actions (driver_body st0))
                        (current_actions st0)) as [He|Hne]; cbn [negb].
  - intros [= <-]. rewrite (driver_body_fixed _ He). now apply driver_body_fixed.
  - apply IH.
Qed.

(** X11.  The state in which the loop ends is a fixpoint of a whole pass:
    on the final sequence the layer builder mints no rule, and one more
    pass changes neither the sequence nor the rule table, the usage counts
    or the counter. *)
Theorem driver_fixpoint (fuel : nat) (st0 st : driver_state) :
  driver_loop fuel st0 = Some st ->
  driver_body st = st
  /\ fst (fst (generate_1_layer_of_rules (self_ st) (current_actions st)))
     = [].
Proof.
  intros Hloop. apply driver_loop_fixed in Hloop. split; [exact Hloop|].
  apply layer_rewrite_same_iff.
  apply (f_equal current_actions) in Hloop.
  rewrite driver_body_unfold in Hloop. exact Hloop.
Qed.

Lemma driver_fixpoint_witness :
  driver_loop 20 (driver_init (init 2 default_end_of_episode_symbol)
                              remint_actions) = Some remint_final
  /\ driver_body remint_final = remint_final
  /\ fst (fst (generate_1_layer_of_rules (self_ remint_final)
                 (current_actions remint_final))) = [].
Proof.
  assert (Hloop : driver_loop 20
                    (driver_init (init 2 default_end_of_episode_symbol)
                                 remint_actions) = Some remint_final)
    by (vm_compute; reflexivity).
  split; [exact Hloop|].
  exact (@driver_fixpoint 20 _ _ Hloop).
Defined.

(** X12.  For every input, when the loop ends the usage counts account for
    the symbols removed: the length of the final sequence plus the sum of
    the counts is the length of the input; every count is positive, and
    every identifier that has a count is a key of the rule table. *)
Theorem usage_accounts_for_removed_symbols (fuel : nat) (self : k_Sequitur)
  (actions : list symbol) (st : driver_state) :
  driver_loop fuel (driver_init self actions) = Some st ->
  (Z.of_nat (length (current_actions st)) + usage_total (rule_usage st)
   = Z.of_nat (length actions))%Z
  /\ Forall (fun kv => (0 < snd kv)%Z) (rule_usage st)
  /\ (forall key, In key (dict_keys (rule_usage st)) ->
        In key (dict_keys (all_rules st))).
Proof.
  intros Hloop.
  destruct (@driver_loop_names_inv self actions fuel _ _
              (driver_names_inv_init self actions) Hloop)
    as [_ _ _ _ Htot Hpos Huk].
  auto.
Qed.

Lemma usage_accounts_for_removed_symbols_witness :
  driver_loop 20 (driver_init (init 2 default_end_of_episode_symbol)
                              remint_actions) = Some remint_final
  /\ (Z.of_nat (length (current_actions remint_final))
      + usage_total (rule_usage remint_final)
      = Z.of_nat (length remint_actions))%Z.
Proof.
  assert (Hloop : driver_loop 20
                    (driver_init (init 2 default_end_of_episode_symbol)
                                 remint_actions) = Some remint_final)
    by (vm_compute; reflexivity).
  split; [exact Hloop|].
  exact (proj1 (@usage_accounts_for_removed_symbols 20 _ _ _ Hloop)).
Defined.

Lemma build_action_usage_total_le fuel rs : forall usage acc action_usage,
  build_action_usage fuel rs usage acc = Some action_usage ->
  Forall (fun kv => (0 < snd kv)%Z) usage ->
  Forall (fun kv => (0 < snd kv)%Z) acc ->
  Forall (fun kv => (0 < snd kv)%Z) action_usage
  /\ (usage_total action_usage <= usage_total acc + usage_total usage)%Z.
Proof.
  induction usage as [|[key n] usage IH]; intros acc action_usage; simpl.
  - intros [= <-] _ Hacc. split; [exact Hacc|lia].
  - destruct (convert_symbol_to_raw_actions fuel key rs) as [raw|];
      [|discriminate].
    intros Hb Hu Hacc. inversion Hu as [|? ? Hn Hu']; subst. simpl in Hn.
    destruct (IH _ _ Hb Hu' (@positive_dict_set _ _ _ raw n acc Hacc Hn))
      as [Hpos Hle].
    split; [exact Hpos|].
    rewrite usage_total_dict_set in Hle.
    pose proof (positive_dd_value raw Hacc). lia.
Qed.

(** X13.  For every input, the counts of the usage map that a call returns
    are positive, and they sum to at most the number of symbols by which
    the returned sequence is shorter than the input. *)
Theorem action_usage_bound (fuel : nat) (self : k_Sequitur)
  (actions new_actions : list symbol) (rs : dict symbol sympair)
  (action_usage : dict (list symbol) Z) (self' : k_Sequitur) :
  generate_action_grammar fuel self actions
  = (Returns (new_actions, rs, action_usage), self') ->
  Forall (fun kv => (0 < snd kv)%Z) action_usage
  /\ (Z.of_nat (length new_actions) + usage_total action_usage
      <= Z.of_nat (length actions))%Z.
Proof.
  intros Hrun. apply generate_action_grammar_returns in Hrun.
  destruct Hrun as [st [Hloop [-> [-> [-> Hbuild]]]]].
  destruct (@driver_loop_names_inv self actions fuel _ _
              (driver_names_inv_init self actions) Hloop)
    as [_ _ _ _ Htot Hpos _].
  destruct (@build_action_usage_total_le _ _ _ _ _ Hbuild Hpos (Forall_nil _))
    as [Hau Hle].
  split; [exact Hau|]. simpl in Hle. lia.
Qed.

Lemma action_usage_bound_witness :
  generate_action_grammar 20 (init 2 default_end_of_episode_symbol)
    remint_actions
  = (Returns (current_actions remint_final, all_rules remint_final,
              [([SInt 0; SInt 1; SInt 2], 2%Z); ([SInt 1; SInt 2], 3%Z)]),
     self_ remint_final)
  /\ (Z.of_nat (length (current_actions remint_final))
      + usage_total [([SInt 0; SInt 1; SInt 2], 2%Z); ([SInt 1; SInt 2], 3%Z)]
      <= Z.of_nat (length remint_actions))%Z.
Proof.
  assert (Hrun : generate_action_grammar 20
                   (init 2 default_end_of_episode_symbol) remint_actions
    = (Returns (current_actions remint_final, all_rules remint_final,
                [([SInt 0; SInt 1; SInt 2], 2%Z); ([SInt 1; SInt 2], 3%Z)]),
       self_ remint_final))
    by (vm_compute; reflexivity).
  split; [exact Hrun|].
  exact (proj2 (@action_usage_bound _ _ _ _ _ _ _ Hrun)).
Defined.

(** X14.  A second call on the sequence that a call returned, with the
    engine as the first call left it: when the sequence starts with an
    integer, the second call returns the same sequence with an empty rule
    table and an empty usage map, and leaves the counter where it was;
    when it starts with a rule name, the second call fails its assertion
    on the first element. *)
Theorem second_call_on_result (fuel fuel' : nat) (self : k_Sequitur)
  (actions new_actions : list symbol) (rs : dict symbol sympair)
  (action_usage : dict (list symbol) Z) (self' : k_Sequitur) :
  generate_action_grammar fuel self actions
  = (Returns (new_actions, rs, action_usage), self') ->
  match new_actions with
  | SInt _ :: _ =>
      generate_action_grammar (S fuel') self' new_actions
      = (Returns (new_actions, [], []), self')
  | _ =>
      generate_action_grammar fuel' self' new_actions
      = (Raises AssertionError, self')
  end.
Proof.
  intros Hrun. apply generate_action_grammar_returns in Hrun.
  destruct Hrun as [st [Hloop [-> [-> [-> _]]]]].
  apply driver_loop_fixed in Hloop.
  assert (Hsame : current_actions
                    (driver_body (driver_init (self_ st) (current_actions st)))
                  = current_actions st).
  { apply (f_equal current_actions) in Hloop.
    rewrite driver_body_unfold in Hloop |- *. exact Hloop. }
  apply (driver_body_fixed (driver_init (self_ st) (current_actions st)))
    in Hsame.
  destruct (current_actions st) as [|[z|s] rest] eqn:Hcur; try reflexivity.
  unfold generate_action_grammar.
  fold (driver_init (self_ st) (SInt z :: rest)).
  rewrite driver_loop_S, Hsame. cbn [current_actions driver_init].
  now rewrite py_eqb_refl.
Qed.

Lemma second_call_on_result_witness :
  generate_action_grammar 10 (init 2 default_end_of_episode_symbol)
    (ints [5; 0; 1; 0; 1]%Z)
  = (Returns ([SInt 5; SStr "R0"; SStr "R0"],
              [(SStr "R0", (SInt 0, SInt 1))], [([SInt 0; SInt 1], 2%Z)]),
     {| k := 2; end_of_episode_symbol := SStr "/"; next_rule_name_ix := 1 |})
  /\ generate_action_grammar 1
       {| k := 2; end_of_episode_symbol := SStr "/"; next_rule_name_ix := 1 |}
       [SInt 5; SStr "R0"; SStr "R0"]
     = (Returns ([SInt 5; SStr "R0"; SStr "R0"], [], []),
        {| k := 2; end_of_episode_symbol := SStr "/";
           next_rule_name_ix := 1 |}).
Proof.
  assert (Hrun : generate_action_grammar 10
                   (init 2 default_end_of_episode_symbol)
                   (ints [5; 0; 1; 0; 1]%Z)
    = (Returns ([SInt 5; SStr "R0"; SStr "R0"],
                [(SStr "R0", (SInt 0, SInt 1))], [([SInt 0; SInt 1], 2%Z)]),
       {| k := 2; end_of_episode_symbol := SStr "/";
          next_rule_name_ix := 1 |}))
    by (vm_compute; reflexivity).
  split; [exact Hrun|].
  exact (@second_call_on_result 10 0 _ _ _ _ _ _ Hrun).
Defined.
